(** * The snakemake job scheduler ([snakemake/scheduler.py])

    A shallow embedding of [JobScheduler]: the two job selectors (the
    ordered-prefix slice and the 0-1 knapsack over thread requirements),
    one iteration of the [schedule] loop, and the two callbacks
    [_finished] and [_error].

    Python integers are [Z].  Job objects live in a store ([gmap] from
    object references to [Job] records) because [schedule] mutates
    [job.threads] in place and the graph, the selector and the callbacks
    all see the same object.  A Python exception ([IndexError],
    [ZeroDivisionError]) is [None] in the [option] monad. *)

From stdpp Require Import gmap strings list.

#[local] Open Scope Z_scope.

(** ** Python list primitives *)

Module Py.

(** [l[i]]: a negative index counts from the end, anything outside
    [-len l, len l) raises [IndexError]. *)
Definition index {A} (l : list A) (i : Z) : option A :=
  let n := Z.of_nat (length l) in
  if bool_decide (0 ≤ i) then l !! Z.to_nat i
  else if bool_decide (- n ≤ i) then l !! Z.to_nat (n + i)
  else None.

(** [l[i] = v], same index rule. *)
Definition setitem {A} (l : list A) (i : Z) (v : A) : option (list A) :=
  let n := Z.of_nat (length l) in
  if bool_decide (0 ≤ i) then
    if bool_decide (i < n) then Some (<[Z.to_nat i := v]> l) else None
  else if bool_decide (- n ≤ i) then Some (<[Z.to_nat (n + i) := v]> l)
  else None.

(** [l[:stop]]: a negative [stop] counts from the end; the slice is
    clipped to the list and never raises. *)
Definition slice_to {A} (l : list A) (stop : Z) : list A :=
  let n := Z.of_nat (length l) in
  if bool_decide (0 ≤ stop) then take (Z.to_nat stop) l
  else take (Z.to_nat (n + stop)) l.

(** [range(lo, hi)], empty when [hi <= lo]. *)
Definition range (lo hi : Z) : list Z :=
  (λ k : nat, lo + Z.of_nat k) <$> seq 0 (Z.to_nat (hi - lo)).

(** [for x in xs: s = body x s], stopping at the first exception. *)
Fixpoint for_each {A S} (xs : list A) (body : A → S → option S) (s : S)
  : option S :=
  match xs with
  | [] => Some s
  | x :: xs' => s' ← body x s; for_each xs' body s'
  end.

End Py.

(** ** Jobs and the object store *)

Record Job := mkJob {
  rule : string;
  threads : Z;
  needrun : bool;
}.

(** A reference to a job object (object identity). *)
Abbreviation jobref := positive (only parsing).

(** The job objects, owned by the graph. *)
Abbreviation store := (gmap positive Job) (only parsing).

(** [job.threads] for the object behind [r]. *)
Definition job_threads (h : store) (r : jobref) : option Z :=
  threads <$> h !! r.

(** [sum(job.threads for job in run)]. *)
Fixpoint sum_threads (h : store) (run : list jobref) : option Z :=
  match run with
  | [] => Some 0
  | r :: run' => t ← job_threads h r; s ← sum_threads h run'; Some (t + s)
  end.

(** ** The selectors *)

(** [_selector]: [jobs[:self._cores]]. *)
Definition _selector (cores : Z) (jobs : list jobref) : list jobref :=
  Py.slice_to jobs cores.

(** The table [K], a list of rows. *)
Abbreviation table := (list (list Z)) (only parsing).

(** [K[i][j]] *)
Definition tget (K : table) (i j : Z) : option Z :=
  row ← Py.index K i; Py.index row j.

(** [K[i][j] = v]; the rows are distinct list objects, so only row [i]
    changes. *)
Definition tset (K : table) (i j : Z) (v : Z) : option table :=
  row ← Py.index K i; row' ← Py.setitem row j v; Py.setitem K i row'.

(** The body of the inner [for j] loop, lines 92-96. *)
Definition fill_cell (h : store) (jobs : list jobref) (i j : Z) (K : table)
  : option table :=
  job ← Py.index jobs (i - 1);
  t ← job_threads h job;
  if bool_decide (t > j) then
    v ← tget K (i - 1) j; tset K i j v
  else
    a ← tget K (i - 1) j;
    b ← tget K (i - 1) (j - t);
    tset K i j (Z.max a (t + b)).

(** Lines 90-96: both loops. *)
Definition fill_table (h : store) (jobs : list jobref) (dimi dimj : Z)
    (K : table) : option table :=
  Py.for_each (Py.range 1 dimi)
    (λ i K, Py.for_each (Py.range 1 dimj) (fill_cell h jobs i) K) K.

(** Lines 101-106, the [while i > 0] loop.  [i] starts at [len(jobs)] and
    drops by one per iteration, so it is a [nat] here. *)
Fixpoint backtrack (h : store) (jobs : list jobref) (K : table)
    (i : nat) (j : Z) (solution : gset positive) : option (gset positive) :=
  match i with
  | O => Some solution
  | S i' =>
      a ← tget K (Z.of_nat i) j;
      b ← tget K (Z.of_nat i - 1) j;
      if bool_decide (a ≠ b) then
        job ← Py.index jobs (Z.of_nat i - 1);
        t ← job_threads h job;
        backtrack h jobs K i' (j - t) (solution ∪ {[job]})
      else backtrack h jobs K i' j solution
  end.

(** [_thread_based_selector], with [cores] the value of [self._cores]. *)
Definition _thread_based_selector (h : store) (cores : Z)
    (jobs : list jobref) : option (gset positive) :=
  let dimi := Z.of_nat (length jobs) + 1 in
  let dimj := cores + 1 in
  let K0 := replicate (Z.to_nat dimi) (replicate (Z.to_nat dimj) 0) in
  K ← fill_table h jobs dimi dimj K0;
  backtrack h jobs K (Z.to_nat (dimi - 1)) (dimj - 1) ∅.

(** ** The scheduler object and its collaborators *)

(** Calls into the collaborators the scheduler does not own (logger,
    statistics, graph, executor), in the order they are made. *)
Inductive Effect :=
| LogWarning (msg : string)
| LogWarn (rule : string) (threads maxcores : Z)
| LogInfo (finished total : Z)
| StatsStart (job : jobref)
| StatsEnd (job : jobref)
| DagFinish (job : jobref)
| ExecRun (job : jobref)
| ExecShutdown.

(** Which function [self._selector] is: the class attribute [_selector],
    or [_thread_based_selector] once line 34 has rebound it. *)
Inductive Selector := PrefixSelector | ThreadBasedSelector.

Record JobScheduler := mkSched {
  dag : gmap positive Job;
  dryrun : bool;
  maxcores : Z;
  finished_jobs : Z;
  _cores : Z;
  _open_jobs : bool;
  _errors : bool;
  selector : Selector;
  _jobs : option (gset positive);
  in_flight : list positive;
  trace : list Effect;
}.

Definition set_dag (d : gmap positive Job) (s : JobScheduler) :=
  mkSched d (dryrun s) (maxcores s) (finished_jobs s) (_cores s)
    (_open_jobs s) (_errors s) (selector s) (_jobs s) (in_flight s) (trace s).
Definition set_finished_jobs (n : Z) (s : JobScheduler) :=
  mkSched (dag s) (dryrun s) (maxcores s) n (_cores s)
    (_open_jobs s) (_errors s) (selector s) (_jobs s) (in_flight s) (trace s).
Definition set_cores (c : Z) (s : JobScheduler) :=
  mkSched (dag s) (dryrun s) (maxcores s) (finished_jobs s) c
    (_open_jobs s) (_errors s) (selector s) (_jobs s) (in_flight s) (trace s).
Definition set_open_jobs (b : bool) (s : JobScheduler) :=
  mkSched (dag s) (dryrun s) (maxcores s) (finished_jobs s) (_cores s)
    b (_errors s) (selector s) (_jobs s) (in_flight s) (trace s).
Definition set_errors (b : bool) (s : JobScheduler) :=
  mkSched (dag s) (dryrun s) (maxcores s) (finished_jobs s) (_cores s)
    (_open_jobs s) b (selector s) (_jobs s) (in_flight s) (trace s).
Definition set_jobs (js : option (gset positive)) (s : JobScheduler) :=
  mkSched (dag s) (dryrun s) (maxcores s) (finished_jobs s) (_cores s)
    (_open_jobs s) (_errors s) (selector s) js (in_flight s) (trace s).
Definition set_in_flight (l : list positive) (s : JobScheduler) :=
  mkSched (dag s) (dryrun s) (maxcores s) (finished_jobs s) (_cores s)
    (_open_jobs s) (_errors s) (selector s) (_jobs s) l (trace s).
Definition emit (e : Effect) (s : JobScheduler) :=
  mkSched (dag s) (dryrun s) (maxcores s) (finished_jobs s) (_cores s)
    (_open_jobs s) (_errors s) (selector s) (_jobs s) (in_flight s)
    (trace s ++ [e]).

(** Modelled from the spec: the graph's [size()] is its total job count
    ([len(self.dag)]; the graph class is not part of this file). *)
Definition dag_len (s : JobScheduler) : Z := Z.of_nat (size (dag s)).

(** Modelled from the spec: the executor's [run] is asynchronous and
    reports each dispatched job exactly once; the jobs it still owes a
    report for are [in_flight]. *)
Definition executor_run (job : jobref) (s : JobScheduler) : JobScheduler :=
  set_in_flight (in_flight s ++ [job]) (emit (ExecRun job) s).

Definition executor_shutdown (s : JobScheduler) : JobScheduler :=
  emit ExecShutdown s.

(** [__init__]; the flags [quiet], [printreason] and [printshellcmds] only
    reach the executor. *)
Definition init (jobs : gmap positive Job) (cores : Z)
    (dryrun touch cluster : bool) : JobScheduler :=
  {| dag := jobs; dryrun := dryrun; maxcores := cores; finished_jobs := 0;
     _cores := cores; _open_jobs := true; _errors := false;
     selector := if dryrun then PrefixSelector
                 else if touch then PrefixSelector
                 else if cluster then PrefixSelector
                 else ThreadBasedSelector;
     _jobs := None; in_flight := []; trace := [] |}.

(** ** [schedule] *)

(** Lines 48-57, the body of [for job in self.dag.ready_jobs]. *)
Definition scan_job (r : jobref) (acc : JobScheduler * list positive)
  : option (JobScheduler * list positive) :=
  let '(s, needrun_jobs) := acc in
  job ← dag s !! r;
  if needrun job then
    if bool_decide (threads job > maxcores s) then
      let s1 := if dryrun s then s
                else emit (LogWarn (rule job) (threads job) (maxcores s)) s in
      let job' := mkJob (rule job) (maxcores s1) (needrun job) in
      Some (set_dag (<[r := job']> (dag s1)) s1, needrun_jobs ++ [r])
    else Some (s, needrun_jobs ++ [r])
  else Some (s, needrun_jobs).

(** Lines 46-57. *)
Definition scan (s : JobScheduler) (ready_jobs : list jobref)
  : option (JobScheduler * list positive) :=
  Py.for_each ready_jobs scan_job (s, []).

(** [self._selector(needrun)], as the sequence the two later iterations
    over [run] see (a list for the slice, the elements of the set for the
    knapsack).  Python fixes no iteration order for a set; [elements]
    stands for whichever order a run takes, and nothing below depends on
    which one it is. *)
Definition select (s : JobScheduler) (needrun_jobs : list jobref)
  : option (list positive) :=
  match selector s with
  | PrefixSelector => Some (_selector (_cores s) needrun_jobs)
  | ThreadBasedSelector =>
      elements <$> _thread_based_selector (dag s) (_cores s) needrun_jobs
  end.

(** Lines 62-66. *)
Definition dispatch (s : JobScheduler) (needrun_jobs : list jobref)
  : option JobScheduler :=
  run ← select s needrun_jobs;
  total ← sum_threads (dag s) run;
  let s1 := set_cores (_cores s - total) s in
  Some (foldl (λ s job, executor_run job (emit (StatsStart job) s)) s1 run).

(** One pass through the body of [while True], from the moment [wait]
    returns.  The result is [Some b] when the pass executes [return b] and
    [None] when it loops back to [wait]. *)
Definition schedule_iter (s : JobScheduler) (ready_jobs : list jobref)
  : option (JobScheduler * option bool) :=
  let s := set_open_jobs false s in
  if _errors s then
    let s := emit (LogWarning
                "Will exit after finishing currently running jobs.") s in
    Some (executor_shutdown s, Some false)
  else
    '(s1, needrun_jobs) ← scan s ready_jobs;
    match needrun_jobs with
    | [] => Some (executor_shutdown s1, Some true)
    | _ :: _ => s2 ← dispatch s1 needrun_jobs; Some (s2, None)
    end.

(** ** The callbacks *)

(** [progress]: a no-op in a dry run (line 27), otherwise line 110, whose
    division raises when the graph is empty. *)
Definition progress (s : JobScheduler) : option JobScheduler :=
  if dryrun s then Some s
  else if bool_decide (dag_len s = 0) then None
  else Some (emit (LogInfo (finished_jobs s) (dag_len s)) s).

Definition _finished (s : JobScheduler) (r : jobref) : option JobScheduler :=
  let s := emit (StatsEnd r) s in
  job ← dag s !! r;
  let s := if needrun job then set_cores (_cores s + threads job) s else s in
  let s := set_finished_jobs (finished_jobs s + 1) s in
  let s := emit (DagFinish r) s in
  s ← progress s;
  Some (set_open_jobs true s).

Definition _error (s : JobScheduler) : JobScheduler :=
  let s := set_errors true s in
  let s := set_jobs (Some ∅) s in
  set_open_jobs true s.

(** ** The executor's side *)

Inductive Callback :=
| OnSuccess (job : jobref)
| OnError (job : jobref).

(** Drop the first occurrence of [r]. *)
Fixpoint remove_one (r : jobref) (l : list jobref) : list jobref :=
  match l with
  | [] => []
  | x :: l' => if decide (x = r) then l' else x :: remove_one r l'
  end.

(** Modelled from the spec: the executor reports a job it was given and
    has not reported yet, by [callback(job)] or by [error_callback()]. *)
Definition deliver (cb : Callback) (s : JobScheduler) : option JobScheduler :=
  match cb with
  | OnSuccess r =>
      if decide (r ∈ in_flight s)
      then _finished (set_in_flight (remove_one r (in_flight s)) s) r
      else None
  | OnError r =>
      if decide (r ∈ in_flight s)
      then Some (_error (set_in_flight (remove_one r (in_flight s)) s))
      else None
  end.

(** What the environment does around one pass of the loop: the callbacks
    that run while the control thread sits in [wait], then the value
    [self.dag.ready_jobs] has when the pass reads it. *)
Record Round := mkRound {
  callbacks : list Callback;
  ready_jobs : list positive;
}.

Inductive Outcome :=
| Returned (b : bool) (s : JobScheduler)
| Waiting (s : JobScheduler)
| Raised.

(** [schedule()] against a finite prefix of the environment's behaviour,
    for the executions in which callbacks run only while the control
    thread sits in [wait].  [wait] returns only once the event is set; a
    round that leaves it unset keeps the thread blocked.  The source
    takes no lock, so a callback can also run in the middle of a pass:
    [schedule_iter_interrupted] below covers that. *)
Fixpoint schedule (rounds : list Round) (s : JobScheduler) : Outcome :=
  match rounds with
  | [] => Waiting s
  | rd :: rest =>
      match Py.for_each (callbacks rd) deliver s with
      | None => Raised
      | Some s1 =>
          if _open_jobs s1 then
            match schedule_iter s1 (ready_jobs rd) with
            | None => Raised
            | Some (s2, Some b) => Returned b s2
            | Some (s2, None) => schedule rest s2
            end
          else schedule rest s1
      end
  end.

(** One transition of a serialized execution: a whole pass of the loop,
    or a whole callback, with nothing interleaved into it.  The source
    does not enforce this (lines 63, 71 and 72 are unlocked
    read-modify-writes), so [step] describes the executions in which
    passes and callbacks happen to run one at a time. *)
Inductive step : JobScheduler → JobScheduler → Prop :=
| step_pass s ready s' out :
    _open_jobs s = true →
    schedule_iter s ready = Some (s', out) →
    step s s'
| step_callback s cb s' :
    deliver cb s = Some s' →
    step s s'.

(** The states of the serialized executions from [s0]. *)
Definition reachable (s0 s : JobScheduler) : Prop := rtc step s0 s.

(** A pass into which callbacks are interleaved: [cbs] run after line 41
    has read the error flag and the scan of lines 46-57 is done, before
    line 58.  With [cbs] empty this is [schedule_iter]. *)
Definition schedule_iter_interrupted (s : JobScheduler)
    (ready_jobs : list jobref) (cbs : list Callback)
  : option (JobScheduler * option bool) :=
  let s := set_open_jobs false s in
  if _errors s then
    let s := emit (LogWarning
                "Will exit after finishing currently running jobs.") s in
    Some (executor_shutdown s, Some false)
  else
    '(s1, needrun_jobs) ← scan s ready_jobs;
    s1 ← Py.for_each cbs deliver s1;
    match needrun_jobs with
    | [] => Some (executor_shutdown s1, Some true)
    | _ :: _ => s2 ← dispatch s1 needrun_jobs; Some (s2, None)
    end.


(** ** The table of the specification *)

(** Thread requirement of [r], for references into the store. *)
Definition thr (h : store) (r : jobref) : Z :=
  default 0 (job_threads h r).

Definition total (h : store) (l : list jobref) : Z :=
  foldr (λ r acc, thr h r + acc) 0 l.

(** [cell(i, j)]: best thread sum of the first [i] candidates under
    capacity [j], by the recurrence. *)
Fixpoint cell (h : store) (jobs : list jobref) (i : nat) (j : Z) : Z :=
  match i with
  | O => 0
  | S i' =>
      match jobs !! i' with
      | Some r =>
          if bool_decide (thr h r > j) then cell h jobs i' j
          else Z.max (cell h jobs i' j) (thr h r + cell h jobs i' (j - thr h r))
      | None => cell h jobs i' j
      end
  end.

(** The backward walk from [cell(i, j)]: candidate [i] is taken when
    [cell(i, j)] differs from [cell(i-1, j)], and the capacity then drops
    by its requirement. *)
Fixpoint reconstruct (h : store) (jobs : list jobref) (i : nat) (j : Z)
  : list jobref :=
  match i with
  | O => []
  | S i' =>
      match jobs !! i' with
      | Some r =>
          if bool_decide (cell h jobs (S i') j ≠ cell h jobs i' j)
          then r :: reconstruct h jobs i' (j - thr h r)
          else reconstruct h jobs i' j
      | None => reconstruct h jobs i' j
      end
  end.

(** The longest prefix of [jobs] whose thread total stays within
    [budget]. *)
Fixpoint longest_prefix (h : store) (budget : Z) (jobs : list jobref)
  : list jobref :=
  match jobs with
  | [] => []
  | r :: jobs' =>
      if bool_decide (thr h r ≤ budget)
      then r :: longest_prefix h (budget - thr h r) jobs'
      else []
  end.

(** ** Sample runs *)

Definition demo_store : store :=
  <[1%positive := mkJob "A" 2 true]>
  (<[2%positive := mkJob "C" 2 true]>
  (<[3%positive := mkJob "B" 3 true]> ∅)).

(** ** Tables used to state the loop invariants *)

(** The table whose cell [(r, c)] holds [f r c]. *)
Definition grid (f : nat → nat → Z) (m n : nat) : list (list Z) :=
  (λ r, (λ c, f r c) <$> seq 0 n) <$> seq 0 m.

(** What [K] holds when the loops of lines 90-96 are about to run the
    body at [(i, j)]: the cells before that point in row-major order are
    filled, the others still hold the initial [0]. *)
Definition filled (h : store) (jobs : list jobref) (i j : nat)
  : nat → nat → Z :=
  λ r c, if decide (r < i ∨ (r = i ∧ c < j))%nat
         then cell h jobs r (Z.of_nat c) else 0.

(** Every candidate is an object of the store with a requirement that is
    not negative. *)
Definition candidates_ok (h : store) (jobs : list jobref) : Prop :=
  Forall (λ r, ∃ job, h !! r = Some job ∧ 0 ≤ threads job) jobs.

(** ** Notions used to state the scheduler's properties *)

(** What lines 49-56 leave of a job object. *)
Definition clamp (maxc : Z) (job : Job) : Job :=
  if needrun job && bool_decide (threads job > maxc)
  then mkJob (rule job) maxc (needrun job) else job.

(** [job.needrun] for the object behind [r]. *)
Definition needs_run (h : store) (r : jobref) : bool :=
  default false (needrun <$> h !! r).

(** The jobs handed to the executor so far, in order. *)
Definition dispatched (s : JobScheduler) : list jobref :=
  omap (λ e, match e with ExecRun r => Some r | _ => None end) (trace s).

(** The attributes a scan of the ready jobs leaves alone. *)
Definition same_control (s s' : JobScheduler) : Prop :=
  dryrun s' = dryrun s ∧ maxcores s' = maxcores s ∧
  finished_jobs s' = finished_jobs s ∧ _cores s' = _cores s ∧
  _open_jobs s' = _open_jobs s ∧ _errors s' = _errors s ∧
  selector s' = selector s ∧ _jobs s' = _jobs s ∧
  in_flight s' = in_flight s.

(** The bookkeeping of a scheduler that runs jobs locally. *)
Definition budget_ok (s : JobScheduler) : Prop :=
  selector s = ThreadBasedSelector ∧
  0 ≤ maxcores s ∧
  (∀ r job, dag s !! r = Some job → 0 ≤ threads job) ∧
  Forall (λ r, ∃ job, dag s !! r = Some job ∧ needrun job = true ∧
                     threads job ≤ maxcores s) (in_flight s) ∧
  0 ≤ _cores s ∧
  _cores s + total (dag s) (in_flight s) ≤ maxcores s.

(** The state one pass leaves when A, C and B are ready and four cores
    are free, for a given choice of executor. *)
Definition demo_pass (dryrun touch cluster : bool) : JobScheduler :=
  let s0 := init demo_store 4 dryrun touch cluster in
  match schedule_iter s0 [1; 2; 3]%positive with
  | Some (s, _) => s
  | None => s0
  end.

(** Three jobs of one thread each. *)
Definition unit_store : store :=
  <[1%positive := mkJob "A" 1 true]>
  (<[2%positive := mkJob "C" 1 true]>
  (<[3%positive := mkJob "B" 1 true]> ∅)).


(** A's completion reported to a fresh scheduler with four cores. *)
Definition demo_finished : JobScheduler :=
  let s0 := init demo_store 4 false false false in
  match _finished s0 1%positive with
  | Some s => s
  | None => s0
  end.

(** The jobs reported to the graph as finished so far, in order. *)
Definition finished (s : JobScheduler) : list jobref :=
  omap (λ e, match e with DagFinish r => Some r | _ => None end) (trace s).

(** * Properties *)

Example demo_knapsack :
  _thread_based_selector demo_store 4 [1; 2; 3]%positive
  = Some ({[1%positive; 2%positive]}).
Proof. vm_compute. reflexivity. Qed.

(** ** Python primitives on in-range indices *)

Lemma index_nat {A} (l : list A) (i : nat) :
  Py.index l (Z.of_nat i) = l !! i.
Proof.
  unfold Py.index. rewrite bool_decide_eq_true_2 by lia.
  by rewrite Nat2Z.id.
Qed.

Lemma setitem_nat {A} (l : list A) (i : nat) (v : A) :
  (i < length l)%nat →
  Py.setitem l (Z.of_nat i) v = Some (<[i := v]> l).
Proof.
  intros Hi. unfold Py.setitem.
  rewrite bool_decide_eq_true_2 by lia.
  rewrite bool_decide_eq_true_2 by lia.
  by rewrite Nat2Z.id.
Qed.

Lemma range_nil lo hi : hi ≤ lo → Py.range lo hi = [].
Proof.
  intros H. unfold Py.range.
  replace (Z.to_nat (hi - lo)) with 0%nat by lia. done.
Qed.

Lemma range_cons lo hi :
  lo < hi → Py.range lo hi = lo :: Py.range (lo + 1) hi.
Proof.
  intros H. unfold Py.range.
  replace (Z.to_nat (hi - lo)) with (S (Z.to_nat (hi - (lo + 1)))) by lia.
  cbn [seq fmap list_fmap]. f_equal; [lia|].
  rewrite <- fmap_S_seq, <- list_fmap_compose.
  apply list_fmap_ext. intros i k _. simpl. lia.
Qed.

(** A loop over [range(lo, hi)] that carries an invariant [P] indexed by
    the loop variable. *)
Lemma for_range {S} (P : Z → S → Prop) (body : Z → S → option S) hi :
  (∀ k s, k < hi → P k s → ∃ s', body k s = Some s' ∧ P (k + 1) s') →
  ∀ (n : nat) lo s, hi - lo = Z.of_nat n → P lo s →
    ∃ s', Py.for_each (Py.range lo hi) body s = Some s' ∧ P hi s'.
Proof.
  intros Hbody. induction n as [|n IH]; intros lo s Hn HP.
  - rewrite range_nil by lia. simpl. exists s.
    replace hi with lo by lia. done.
  - rewrite range_cons by lia. simpl.
    destruct (Hbody lo s) as (s1 & -> & HP1); [lia|done|]. simpl.
    apply IH; [lia|done].
Qed.

(** ** Tables given by a function of the row and column *)

Lemma grid_ext f g m n :
  (∀ r c, (r < m)%nat → (c < n)%nat → f r c = g r c) →
  grid f m n = grid g m n.
Proof.
  intros H. unfold grid. apply list_fmap_ext. intros i r Hr.
  apply lookup_seq in Hr as [-> Hr].
  apply list_fmap_ext. intros k c Hc.
  apply lookup_seq in Hc as [-> Hc]. simpl. auto.
Qed.

Lemma grid_row f m n (r : nat) :
  (r < m)%nat → grid f m n !! r = Some ((λ c, f r c) <$> seq 0 n).
Proof.
  intros Hr. unfold grid. rewrite list_lookup_fmap.
  by rewrite lookup_seq_lt.
Qed.

Lemma grid_get f m n (r c : nat) :
  (r < m)%nat → (c < n)%nat →
  tget (grid f m n) (Z.of_nat r) (Z.of_nat c) = Some (f r c).
Proof.
  intros Hr Hc. unfold tget. rewrite index_nat, grid_row by done. simpl.
  rewrite index_nat, list_lookup_fmap. by rewrite lookup_seq_lt.
Qed.

Lemma grid_set f m n (r c : nat) v :
  (r < m)%nat → (c < n)%nat →
  tset (grid f m n) (Z.of_nat r) (Z.of_nat c) v
  = Some (grid (λ r' c', if decide (r' = r ∧ c' = c) then v else f r' c') m n).
Proof.
  intros Hr Hc. unfold tset. rewrite index_nat, grid_row by done. simpl.
  rewrite setitem_nat by (by rewrite length_fmap, length_seq). simpl.
  rewrite setitem_nat by (unfold grid; by rewrite length_fmap, length_seq).
  f_equal. apply list_eq. intros k.
  destruct (decide (k = r)) as [->|Hk].
  - rewrite list_lookup_insert_eq
      by (unfold grid; by rewrite length_fmap, length_seq).
    rewrite grid_row by done. f_equal. apply list_eq. intros q.
    destruct (decide (q = c)) as [->|Hq].
    + rewrite list_lookup_insert_eq by (by rewrite length_fmap, length_seq).
      rewrite list_lookup_fmap, lookup_seq_lt by done. simpl.
      by rewrite decide_True.
    + rewrite list_lookup_insert_ne by done.
      rewrite !list_lookup_fmap. destruct (seq 0 n !! q) eqn:E; [|done].
      simpl. destruct (proj1 (lookup_seq _ _ _ _) E) as [-> _]; simpl.
      by rewrite decide_False by (intros [? ?]; lia).
  - rewrite list_lookup_insert_ne by done.
    unfold grid. rewrite !list_lookup_fmap.
    destruct (seq 0 m !! k) eqn:E; [|done]. simpl.
    destruct (proj1 (lookup_seq _ _ _ _) E) as [-> _]; simpl. f_equal.
    apply list_fmap_ext. intros i q _. simpl.
    by rewrite decide_False by (intros [? ?]; lia).
Qed.

Lemma grid_zero m n : replicate m (replicate n 0) = grid (λ _ _, 0) m n.
Proof.
  unfold grid. apply list_eq. intros k.
  rewrite list_lookup_fmap.
  destruct (decide (k < m)%nat).
  - rewrite lookup_replicate_2, lookup_seq_lt by done. simpl. f_equal.
    apply list_eq. intros q. rewrite list_lookup_fmap.
    destruct (decide (q < n)%nat).
    + by rewrite lookup_replicate_2, lookup_seq_lt by done.
    + rewrite lookup_seq_ge by lia.
      apply lookup_replicate_None. lia.
  - rewrite lookup_seq_ge by lia. apply lookup_replicate_None. lia.
Qed.

(** ** The specification's table *)

Lemma thr_lookup h r job : h !! r = Some job → thr h r = threads job.
Proof. intros H. unfold thr, job_threads. by rewrite H. Qed.

Lemma candidates_ok_lookup h jobs (i : nat) r :
  candidates_ok h jobs → jobs !! i = Some r →
  job_threads h r = Some (thr h r) ∧ 0 ≤ thr h r.
Proof.
  intros Hok Hi.
  destruct (proj1 (Forall_lookup _ _) Hok i r Hi) as (job & Hjob & Hpos).
  rewrite (thr_lookup _ _ _ Hjob). unfold job_threads. by rewrite Hjob.
Qed.

Lemma cell_bounds h jobs i j :
  candidates_ok h jobs → 0 ≤ j → 0 ≤ cell h jobs i j ≤ j.
Proof.
  intros Hok. revert j. induction i as [|i IH]; intros j Hj; simpl; [lia|].
  destruct (jobs !! i) as [r|] eqn:Hr; [|by apply IH].
  destruct (candidates_ok_lookup _ _ _ _ Hok Hr) as [_ Ht].
  case_bool_decide; [by apply IH|].
  pose proof (IH j Hj). pose proof (IH (j - thr h r)). lia.
Qed.

Lemma cell_zero h jobs i : candidates_ok h jobs → cell h jobs i 0 = 0.
Proof. intros Hok. pose proof (cell_bounds h jobs i 0 Hok). lia. Qed.

(** ** The two loops fill the table with [cell] *)

Section fill.
Context (h : store) (jobs : list jobref) (cores : Z).
Hypothesis Hok : candidates_ok h jobs.
Hypothesis Hcores : 0 ≤ cores.

Let m : nat := S (length jobs).
Let n : nat := S (Z.to_nat cores).

Lemma fill_cell_filled (i j : nat) :
  (1 ≤ i < m)%nat → (1 ≤ j < n)%nat →
  fill_cell h jobs (Z.of_nat i) (Z.of_nat j) (grid (filled h jobs i j) m n)
  = Some (grid (filled h jobs i (S j)) m n).
Proof.
  intros Hi Hj. unfold fill_cell.
  destruct i as [|i]; [lia|].
  replace (Z.of_nat (S i) - 1) with (Z.of_nat i) by lia.
  rewrite index_nat.
  destruct (lookup_lt_is_Some_2 jobs i) as [r Hr]; [subst m; lia|].
  rewrite Hr. simpl.
  destruct (candidates_ok_lookup _ _ _ _ Hok Hr) as [Ht Hpos].
  rewrite Ht. simpl.
  assert (Hprev : ∀ c : nat, (c < n)%nat →
    tget (grid (filled h jobs (S i) j) m n) (Z.of_nat i) (Z.of_nat c)
    = Some (cell h jobs i (Z.of_nat c))).
  { intros c Hc. rewrite grid_get by lia. unfold filled.
    by rewrite decide_True by lia. }
  assert (Hnew : ∀ v, v = cell h jobs (S i) (Z.of_nat j) →
    tset (grid (filled h jobs (S i) j) m n) (Z.of_nat (S i)) (Z.of_nat j) v
    = Some (grid (filled h jobs (S i) (S j)) m n)).
  { intros v ->. rewrite grid_set by lia. f_equal.
    apply grid_ext. intros r' c' _ _. unfold filled.
    repeat case_decide; destruct_and?; subst; try done; lia. }
  case_bool_decide as Hgt.
  - rewrite Hprev by lia. simpl. apply Hnew.
    simpl. rewrite Hr. by rewrite bool_decide_eq_true_2.
  - rewrite Hprev by lia. simpl.
    replace (Z.of_nat j - thr h r) with (Z.of_nat (Z.to_nat (Z.of_nat j - thr h r)))
      by lia.
    rewrite Hprev by lia. simpl. apply Hnew.
    simpl. rewrite Hr. rewrite bool_decide_eq_false_2 by done.
    by replace (Z.of_nat (Z.to_nat (Z.of_nat j - thr h r)))
      with (Z.of_nat j - thr h r) by lia.
Qed.

Lemma fill_row_filled (i : nat) :
  (1 ≤ i < m)%nat →
  Py.for_each (Py.range 1 (cores + 1)) (fill_cell h jobs (Z.of_nat i))
    (grid (filled h jobs i 1) m n)
  = Some (grid (filled h jobs (S i) 1) m n).
Proof.
  intros Hi.
  destruct (for_range
    (λ k K, 1 ≤ k ∧ K = grid (filled h jobs i (Z.to_nat k)) m n)
    (fill_cell h jobs (Z.of_nat i)) (cores + 1)) with
    (n := Z.to_nat cores) (lo := 1) (s := grid (filled h jobs i 1) m n)
    as (K' & HK' & _ & ->); [|lia|done|].
  - intros k K Hk [Hk1 ->]. eexists. split; [|split; [lia|reflexivity]].
    replace k with (Z.of_nat (Z.to_nat k)) at 1 by lia.
    rewrite fill_cell_filled by (subst n; lia).
    by replace (Z.to_nat (k + 1)) with (S (Z.to_nat k)) by lia.
  - rewrite HK'. f_equal. apply grid_ext. intros r c Hr Hc.
    unfold filled. subst n.
    repeat case_decide; try done; try lia.
    assert (r = S i ∧ c = 0%nat) as [-> ->] by lia.
    by rewrite cell_zero.
Qed.

Lemma fill_table_filled :
  fill_table h jobs (Z.of_nat (length jobs) + 1) (cores + 1)
    (replicate m (replicate n 0))
  = Some (grid (λ r c, cell h jobs r (Z.of_nat c)) m n).
Proof.
  unfold fill_table.
  destruct (for_range
    (λ k K, 1 ≤ k ∧ K = grid (filled h jobs (Z.to_nat k) 1) m n)
    (λ i K, Py.for_each (Py.range 1 (cores + 1)) (fill_cell h jobs i) K)
    (Z.of_nat (length jobs) + 1)) with
    (n := length jobs) (lo := 1) (s := replicate m (replicate n 0))
    as (K' & HK' & _ & ->); [|lia| |].
  - intros k K Hk [Hk1 ->]. eexists. split; [|split; [lia|reflexivity]].
    replace k with (Z.of_nat (Z.to_nat k)) at 1 by lia.
    rewrite fill_row_filled by (subst m; lia).
    by replace (Z.to_nat (k + 1)) with (S (Z.to_nat k)) by lia.
  - split; [lia|]. rewrite grid_zero. apply grid_ext.
    intros r c Hr Hc. unfold filled.
    case_decide as Hd; [|done].
    destruct Hd as [Hd|[-> Hd]].
    + assert (r = 0%nat) as -> by lia. done.
    + assert (c = 0%nat) as -> by lia. by rewrite cell_zero.
  - rewrite HK'. f_equal. apply grid_ext. intros r c Hr Hc.
    unfold filled. subst m. rewrite decide_True by lia. done.
Qed.

End fill.

(** ** Sums of thread requirements *)

Lemma sum_threads_total h l w : sum_threads h l = Some w → w = total h l.
Proof.
  revert w. induction l as [|r l IH]; intros w; simpl; [congruence|].
  unfold thr. destruct (job_threads h r) as [t|]; [|done]. simpl.
  destruct (sum_threads h l) as [s|]; [|done]. simpl.
  intros [= <-]. by rewrite (IH s).
Qed.

Lemma sum_threads_Some h l :
  Forall (λ r, is_Some (h !! r)) l → sum_threads h l = Some (total h l).
Proof.
  induction 1 as [|r l [job Hjob] _ IH]; simpl; [done|].
  rewrite IH. unfold thr, job_threads. by rewrite Hjob.
Qed.

#[local] Instance total_perm h : Proper ((≡ₚ) ==> (=)) (total h).
Proof.
  intros l1 l2 Hp. induction Hp; simpl; [done|congruence|lia|congruence].
Qed.

Lemma total_app h l1 l2 : total h (l1 ++ l2) = total h l1 + total h l2.
Proof. induction l1 as [|r l1 IH]; simpl; lia. Qed.

Lemma total_nonneg h l : Forall (λ r, 0 ≤ thr h r) l → 0 ≤ total h l.
Proof. induction 1; simpl; lia. Qed.

Lemma total_submseteq h l1 l2 :
  l1 ⊆+ l2 → Forall (λ r, 0 ≤ thr h r) l2 → total h l1 ≤ total h l2.
Proof.
  intros Hsub Hpos. apply submseteq_Permutation in Hsub as [k Hk].
  rewrite Hk in Hpos |- *. rewrite total_app.
  apply Forall_app in Hpos as [_ Hpos].
  pose proof (total_nonneg _ _ Hpos). lia.
Qed.

Lemma candidates_ok_nonneg h jobs :
  candidates_ok h jobs → Forall (λ r, 0 ≤ thr h r) jobs.
Proof.
  intros Hok. eapply Forall_impl; [exact Hok|].
  intros r (job & Hjob & Hpos). by rewrite (thr_lookup _ _ _ Hjob).
Qed.

Lemma candidates_ok_alloc h jobs :
  candidates_ok h jobs → Forall (λ r, is_Some (h !! r)) jobs.
Proof.
  intros Hok. eapply Forall_impl; [exact Hok|].
  intros r (job & Hjob & _). by exists job.
Qed.

(** ** The backward walk of the specification *)

Lemma cell_S h jobs i j r :
  jobs !! i = Some r →
  cell h jobs (S i) j
  = if bool_decide (thr h r > j) then cell h jobs i j
    else Z.max (cell h jobs i j) (thr h r + cell h jobs i (j - thr h r)).
Proof. intros Hr. simpl. by rewrite Hr. Qed.

Lemma cell_S_None h jobs i j :
  jobs !! i = None → cell h jobs (S i) j = cell h jobs i j.
Proof. intros Hr. simpl. by rewrite Hr. Qed.

Lemma reconstruct_S h jobs i j r :
  jobs !! i = Some r →
  reconstruct h jobs (S i) j
  = if bool_decide (cell h jobs (S i) j ≠ cell h jobs i j)
    then r :: reconstruct h jobs i (j - thr h r)
    else reconstruct h jobs i j.
Proof. intros Hr. cbn [reconstruct]. by rewrite Hr. Qed.

Lemma reconstruct_S_None h jobs i j :
  jobs !! i = None → reconstruct h jobs (S i) j = reconstruct h jobs i j.
Proof. intros Hr. cbn [reconstruct]. by rewrite Hr. Qed.

(** A candidate is taken only if it fits the capacity left. *)
Lemma cell_changes_fits h jobs i j r :
  jobs !! i = Some r →
  cell h jobs (S i) j ≠ cell h jobs i j →
  thr h r ≤ j ∧ cell h jobs (S i) j = thr h r + cell h jobs i (j - thr h r).
Proof.
  intros Hr. rewrite (cell_S _ _ _ _ _ Hr).
  case_bool_decide; [done|]. lia.
Qed.

Lemma total_reconstruct h jobs i j :
  candidates_ok h jobs → 0 ≤ j →
  total h (reconstruct h jobs i j) = cell h jobs i j.
Proof.
  intros Hok. revert j. induction i as [|i IH]; intros j Hj; [done|].
  destruct (jobs !! i) as [r|] eqn:Hr.
  - rewrite (reconstruct_S _ _ _ _ _ Hr).
    case_bool_decide as Hne.
    + destruct (cell_changes_fits _ _ _ _ _ Hr Hne) as [Hfit ->].
      simpl. rewrite IH by lia. done.
    + rewrite IH by done. lia.
  - rewrite reconstruct_S_None, cell_S_None by done. by apply IH.
Qed.

Lemma take_S_None {A} (l : list A) i :
  l !! i = None → take (S i) l = take i l.
Proof.
  intros H. apply lookup_ge_None in H. by rewrite !take_ge by lia.
Qed.

Lemma reconstruct_sublist h jobs i j :
  reconstruct h jobs i j `sublist_of` reverse (take i jobs).
Proof.
  revert j. induction i as [|i IH]; intros j; [done|].
  destruct (jobs !! i) as [r|] eqn:Hr.
  - rewrite (reconstruct_S _ _ _ _ _ Hr), (take_S_r _ _ _ Hr).
    rewrite reverse_snoc. case_bool_decide.
    + by apply sublist_skip.
    + by apply sublist_cons.
  - rewrite reconstruct_S_None, take_S_None by done. apply IH.
Qed.

Lemma reconstruct_submseteq h jobs i j :
  reconstruct h jobs i j ⊆+ jobs.
Proof.
  transitivity (take i jobs).
  - rewrite <- (reverse_Permutation (take i jobs)).
    apply sublist_submseteq, reconstruct_sublist.
  - apply sublist_submseteq, sublist_take.
Qed.

Lemma reconstruct_NoDup h jobs i j :
  NoDup jobs → NoDup (reconstruct h jobs i j).
Proof.
  intros Hnd. eapply sublist_NoDup; [|apply reconstruct_sublist].
  rewrite reverse_Permutation.
  eapply sublist_NoDup; [done|apply sublist_take].
Qed.

(** No sub-multiset of the first [i] candidates that fits [j] beats
    [cell(i, j)]. *)
Lemma cell_optimal h jobs i j S :
  candidates_ok h jobs →
  S ⊆+ take i jobs → total h S ≤ j → total h S ≤ cell h jobs i j.
Proof.
  intros Hok. revert j S. induction i as [|i IH]; intros j S Hsub Hfit.
  - apply submseteq_nil_r in Hsub as ->. done.
  - destruct (jobs !! i) as [r|] eqn:Hr.
    + rewrite (take_S_r _ _ _ Hr) in Hsub.
      rewrite <- Permutation_cons_append in Hsub.
      destruct (candidates_ok_lookup _ _ _ _ Hok Hr) as [_ Hpos].
      rewrite (cell_S _ _ _ _ _ Hr).
      apply submseteq_cons_r in Hsub as [Hsub|(S' & HS & Hsub)].
      * pose proof (IH j S Hsub Hfit). case_bool_decide; lia.
      * rewrite HS in Hfit |- *. simpl in *.
        assert (0 ≤ total h S').
        { apply total_nonneg. eapply Forall_forall. intros x Hx.
          eapply (proj1 (Forall_forall _ _) (candidates_ok_nonneg _ _ Hok)).
          eapply elem_of_submseteq in Hsub; [|done].
          apply elem_of_take in Hsub as (k & Hk & _).
          by eapply list_elem_of_lookup_2. }
        pose proof (IH (j - thr h r) S' Hsub).
        case_bool_decide; lia.
    + rewrite cell_S_None by done.
      rewrite take_S_None in Hsub by done. by apply IH.
Qed.

(** ** The [while] loop walks the filled table as the specification says *)

Lemma backtrack_reconstruct h jobs cores (i : nat) j solution :
  candidates_ok h jobs → (i ≤ length jobs)%nat → 0 ≤ j ≤ cores →
  backtrack h jobs
    (grid (λ r c, cell h jobs r (Z.of_nat c))
       (S (length jobs)) (S (Z.to_nat cores)))
    i j solution
  = Some (solution ∪ list_to_set (reconstruct h jobs i j)).
Proof.
  intros Hok. revert j solution.
  induction i as [|i IH]; intros j solution Hi Hj.
  - simpl. by rewrite (right_id_L ∅ (∪)).
  - assert (Hget : ∀ r : nat, (r ≤ S i)%nat →
      tget (grid (λ r c, cell h jobs r (Z.of_nat c))
              (S (length jobs)) (S (Z.to_nat cores))) (Z.of_nat r) j
      = Some (cell h jobs r j)).
    { intros r Hr. replace j with (Z.of_nat (Z.to_nat j)) at 1 by lia.
      rewrite grid_get by lia. by rewrite Z2Nat.id by lia. }
    cbn [backtrack]. rewrite Hget by lia.
    replace (Z.of_nat (S i) - 1) with (Z.of_nat i) by lia.
    rewrite Hget by lia. cbn [mbind option_bind].
    destruct (lookup_lt_is_Some_2 jobs i) as [r Hr]; [lia|].
    rewrite (reconstruct_S _ _ _ _ _ Hr).
    case_bool_decide as Hne.
    + rewrite index_nat, Hr. cbn [mbind option_bind].
      destruct (candidates_ok_lookup _ _ _ _ Hok Hr) as [-> Hpos].
      cbn [mbind option_bind].
      destruct (cell_changes_fits _ _ _ _ _ Hr Hne) as [Hfit _].
      rewrite IH by lia. by rewrite list_to_set_cons, (assoc_L (∪)).
    + by rewrite IH by lia.
Qed.

(** The selector returns the set of jobs the walk of the specification
    takes. *)
Lemma selector_reconstruct h cores jobs :
  candidates_ok h jobs → 0 ≤ cores →
  _thread_based_selector h cores jobs
  = Some (list_to_set (reconstruct h jobs (length jobs) cores)).
Proof.
  intros Hok Hcores. unfold _thread_based_selector.
  replace (Z.to_nat (Z.of_nat (length jobs) + 1)) with (S (length jobs)) by lia.
  replace (Z.to_nat (cores + 1)) with (S (Z.to_nat cores)) by lia.
  rewrite fill_table_filled by done. cbn [mbind option_bind].
  replace (Z.to_nat (Z.of_nat (length jobs) + 1 - 1)) with (length jobs) by lia.
  replace (cores + 1 - 1) with cores by lia.
  rewrite (backtrack_reconstruct h jobs cores) by (done || lia).
  by rewrite (left_id_L ∅ (∪)).
Qed.

Lemma selector_subset h cores jobs sol :
  candidates_ok h jobs → 0 ≤ cores →
  _thread_based_selector h cores jobs = Some sol →
  sol ⊆ list_to_set jobs.
Proof.
  intros Hok Hcores. rewrite selector_reconstruct by done. intros [= <-].
  intros x. rewrite !elem_of_list_to_set. intros Hx.
  eapply elem_of_submseteq; [done|apply reconstruct_submseteq].
Qed.

(** The chosen set fits the budget, duplicates in [jobs] or not. *)
Lemma selector_fits h cores jobs sol :
  candidates_ok h jobs → 0 ≤ cores →
  _thread_based_selector h cores jobs = Some sol →
  0 ≤ total h (elements sol) ≤ cores.
Proof.
  intros Hok Hcores Hsol.
  pose proof (selector_subset _ _ _ _ Hok Hcores Hsol) as Hsub.
  rewrite selector_reconstruct in Hsol by done. injection Hsol as <-.
  set (l := reconstruct h jobs (length jobs) cores) in *.
  assert (Hl : Forall (λ r, 0 ≤ thr h r) l).
  { eapply Forall_forall. intros x Hx.
    eapply (proj1 (Forall_forall _ _) (candidates_ok_nonneg _ _ Hok)).
    eapply elem_of_submseteq; [done|apply reconstruct_submseteq]. }
  assert (elements (list_to_set (C := gset positive) l) ⊆+ l) as Hel.
  { apply NoDup_submseteq; [apply NoDup_elements|].
    intros x. by rewrite elem_of_elements, elem_of_list_to_set. }
  split.
  - apply total_nonneg. eapply Forall_forall. intros x Hx.
    eapply (proj1 (Forall_forall _ _) Hl). by eapply elem_of_submseteq.
  - pose proof (total_submseteq _ _ _ Hel Hl).
    pose proof (total_reconstruct h jobs (length jobs) cores Hok Hcores).
    pose proof (cell_bounds h jobs (length jobs) cores Hok Hcores).
    subst l. lia.
Qed.

(** ** The knapsack selector *)

Example demo_candidates_ok : candidates_ok demo_store [1; 2; 3]%positive.
Proof.
  repeat constructor; eexists; (split; [vm_compute; reflexivity|simpl; lia]).
Qed.

(** C1.  For a budget that is not negative and distinct candidates with
    requirements that are not negative, [_thread_based_selector] returns
    a subset of the candidates whose thread total is within the budget,
    and no subset of the candidates within the budget has a larger
    total. *)
Theorem knapsack_optimal h cores jobs :
  0 ≤ cores → NoDup jobs → candidates_ok h jobs →
  ∃ (sol : gset positive) (w : Z),
    _thread_based_selector h cores jobs = Some sol ∧
    sol ⊆ list_to_set jobs ∧
    sum_threads h (elements sol) = Some w ∧
    w ≤ cores ∧
    ∀ (S : gset positive) (v : Z),
      S ⊆ list_to_set jobs →
      sum_threads h (elements S) = Some v →
      v ≤ cores → v ≤ w.
Proof.
  intros Hcores Hnd Hok.
  pose proof (selector_reconstruct h cores jobs Hok Hcores) as Hsel.
  set (l := reconstruct h jobs (length jobs) cores) in *.
  assert (Hperm : elements (list_to_set (C := gset positive) l) ≡ₚ l).
  { apply elements_list_to_set, reconstruct_NoDup, Hnd. }
  assert (Hw : total h (elements (list_to_set (C := gset positive) l))
               = cell h jobs (length jobs) cores).
  { rewrite Hperm. by apply total_reconstruct. }
  exists (list_to_set l), (cell h jobs (length jobs) cores).
  split; [done|]. split; [by eapply selector_subset|].
  split; [|split].
  - rewrite <- Hw. apply sum_threads_Some.
    eapply Forall_forall. intros x Hx.
    eapply (proj1 (Forall_forall _ _) (candidates_ok_alloc _ _ Hok)).
    rewrite Hperm in Hx.
    eapply elem_of_submseteq; [done|apply reconstruct_submseteq].
  - by apply cell_bounds.
  - intros S v HS Hv Hfit. apply sum_threads_total in Hv as ->.
    apply cell_optimal; [done| |done].
    rewrite take_ge by done.
    apply NoDup_submseteq; [apply NoDup_elements|].
    intros x Hx. apply elem_of_elements in Hx.
    apply HS in Hx. by apply elem_of_list_to_set in Hx.
Qed.

Lemma knapsack_optimal_witness :
  ∃ (sol : gset positive) (w : Z),
    _thread_based_selector demo_store 4 [1; 2; 3]%positive = Some sol ∧
    sol ⊆ list_to_set [1; 2; 3]%positive ∧
    sum_threads demo_store (elements sol) = Some w ∧
    w ≤ 4 ∧
    ∀ (S : gset positive) (v : Z),
      S ⊆ list_to_set [1; 2; 3]%positive →
      sum_threads demo_store (elements S) = Some v →
      v ≤ 4 → v ≤ w.
Proof.
  apply (knapsack_optimal demo_store 4 [1; 2; 3]%positive).
  - lia.
  - apply (bool_decide_unpack _). vm_compute. exact I.
  - exact demo_candidates_ok.
Defined.

(** C8.  The selector's result is the set the backward walk of the
    specification collects: starting from [cell(n, budget)], candidate
    [i] is taken when [cell(i, j)] differs from [cell(i-1, j)] and the
    capacity then drops by its requirement; the jobs taken add up to
    [cell(n, budget)]. *)
Theorem selector_walks_table h cores jobs :
  candidates_ok h jobs → 0 ≤ cores →
  _thread_based_selector h cores jobs
  = Some (list_to_set (reconstruct h jobs (length jobs) cores)) ∧
  total h (reconstruct h jobs (length jobs) cores)
  = cell h jobs (length jobs) cores.
Proof.
  intros Hok Hcores. split.
  - by apply selector_reconstruct.
  - by apply total_reconstruct.
Qed.

Lemma selector_walks_table_witness :
  _thread_based_selector demo_store 4 [1; 2; 3]%positive
  = Some (list_to_set (reconstruct demo_store [1; 2; 3]%positive
                         (length [1; 2; 3]%positive) 4)) ∧
  total demo_store (reconstruct demo_store [1; 2; 3]%positive
                      (length [1; 2; 3]%positive) 4)
  = cell demo_store [1; 2; 3]%positive (length [1; 2; 3]%positive) 4.
Proof.
  apply (selector_walks_table demo_store 4 [1; 2; 3]%positive).
  - exact demo_candidates_ok.
  - lia.
Defined.

(** A negative budget leaves the rows of [K] empty, and line 102 raises
    [IndexError]. *)
Example demo_negative_budget :
  _thread_based_selector demo_store (-1) [1]%positive = None.
Proof. vm_compute. reflexivity. Qed.

Example demo_reconstruct :
  reconstruct demo_store [1; 2; 3]%positive 3 4 = [2; 1]%positive.
Proof. vm_compute. reflexivity. Qed.

(** With no capacity the walk never sees two cells differ. *)
Lemma backtrack_zero_budget h jobs m (i : nat) solution :
  (i < m)%nat →
  backtrack h jobs (replicate m (replicate 1 0)) i 0 solution = Some solution.
Proof.
  induction i as [|i IH]; intros Hi; [done|].
  assert (Hget : ∀ r : nat, (r < m)%nat →
    tget (replicate m (replicate 1 0)) (Z.of_nat r) 0 = Some 0).
  { intros r Hr. unfold tget.
    rewrite index_nat, lookup_replicate_2 by done. done. }
  cbn [backtrack]. rewrite Hget by lia.
  replace (Z.of_nat (S i) - 1) with (Z.of_nat i) by lia.
  rewrite Hget by lia. cbn [mbind option_bind].
  rewrite bool_decide_eq_false_2 by (intros H; by apply H).
  apply IH. lia.
Qed.

Lemma for_each_skip {A S} (xs : list A) (s : S) :
  Py.for_each xs (λ _ s, Some s) s = Some s.
Proof. induction xs as [|x xs IH]; simpl; done. Qed.

(** C9.  When the budget is zero or there is no candidate,
    [_thread_based_selector] returns the empty set. *)
Theorem knapsack_nothing_to_pack h cores jobs :
  cores = 0 ∨ jobs = [] →
  _thread_based_selector h cores jobs = Some ∅.
Proof.
  intros [-> | ->].
  - unfold _thread_based_selector, fill_table.
    change (Py.range 1 (0 + 1)) with (@nil Z).
    cbn [Py.for_each]. rewrite for_each_skip. cbn [mbind option_bind].
    replace (Z.to_nat (Z.of_nat (length jobs) + 1 - 1)) with (length jobs)
      by lia.
    change (Z.to_nat (0 + 1)) with 1%nat. change (0 + 1 - 1) with 0.
    apply backtrack_zero_budget. lia.
  - reflexivity.
Qed.

Lemma knapsack_nothing_to_pack_witness :
  _thread_based_selector demo_store 0 [1; 2; 3]%positive = Some ∅.
Proof.
  apply (knapsack_nothing_to_pack demo_store 0 [1; 2; 3]%positive).
  left. reflexivity.
Defined.

(** ** The ordered-prefix selector *)

Lemma longest_prefix_unit h (c : nat) jobs :
  Forall (λ r, job_threads h r = Some 1) jobs →
  longest_prefix h (Z.of_nat c) jobs = take c jobs.
Proof.
  intros Hone. revert c.
  induction Hone as [|r jobs Hr _ IH]; intros c; [by destruct c|].
  simpl. unfold thr. rewrite Hr. simpl. destruct c as [|c].
  - by rewrite bool_decide_eq_false_2 by lia.
  - rewrite bool_decide_eq_true_2 by lia. simpl. f_equal.
    replace (Z.of_nat (S c) - 1) with (Z.of_nat c) by lia. apply IH.
Qed.

(** C3, as the code has it.  With a budget that is not negative the
    slice is the first [min(budget, n)] jobs in listed order: it counts
    jobs, not threads.  Whenever every requirement is one thread, that
    is the longest prefix whose thread total is within the budget. *)
Theorem prefix_selector_counts_jobs h cores jobs :
  0 ≤ cores →
  _selector cores jobs = take (Z.to_nat cores) jobs ∧
  length (_selector cores jobs) = Nat.min (Z.to_nat cores) (length jobs) ∧
  (Forall (λ r, job_threads h r = Some 1) jobs →
   _selector cores jobs = longest_prefix h cores jobs).
Proof.
  intros Hcores.
  assert (Hsel : _selector cores jobs = take (Z.to_nat cores) jobs).
  { unfold _selector, Py.slice_to. by rewrite bool_decide_eq_true_2. }
  rewrite Hsel. split; [done|]. split; [apply length_take|].
  intros Hone. rewrite <- (Z2Nat.id cores) at 2 by done.
  by rewrite longest_prefix_unit.
Qed.

Lemma prefix_selector_counts_jobs_witness :
  _selector 2 [1; 2; 3]%positive = take (Z.to_nat 2) [1; 2; 3]%positive ∧
  length (_selector 2 [1; 2; 3]%positive)
  = Nat.min (Z.to_nat 2) (length [1; 2; 3]%positive) ∧
  _selector 2 [1; 2; 3]%positive
  = longest_prefix unit_store 2 [1; 2; 3]%positive.
Proof.
  destruct (prefix_selector_counts_jobs unit_store 2 [1; 2; 3]%positive)
    as (Htake & Hlen & Hunit); [lia|].
  split; [exact Htake|]. split; [exact Hlen|].
  apply Hunit. repeat constructor; vm_compute; reflexivity.
Defined.

Example demo_unit_prefix :
  longest_prefix unit_store 2 [1; 2; 3]%positive = [1; 2]%positive.
Proof. vm_compute. reflexivity. Qed.

(** C3 as stated fails: with two threads left and the candidates A and C
    of two threads each, the slice returns both (four threads), not the
    longest prefix within the budget, which is A alone. *)
Lemma prefix_selector_exceeds_budget :
  _selector 2 [1; 2]%positive = [1; 2]%positive ∧
  sum_threads demo_store (_selector 2 [1; 2]%positive) = Some 4 ∧
  longest_prefix demo_store 2 [1; 2]%positive = [1]%positive ∧
  _selector 2 [1; 2]%positive ≠ longest_prefix demo_store 2 [1; 2]%positive.
Proof. vm_compute. repeat split; congruence. Qed.

(** C10.  With nothing left the slice is empty, but a counter that has
    gone negative, [-k] with [0 < k < n], makes it the first [n - k]
    jobs, which is not empty. *)
Theorem prefix_selector_negative_budget (jobs : list positive) (k : nat) :
  _selector 0 jobs = [] ∧
  ((0 < k < length jobs)%nat →
   _selector (- Z.of_nat k) jobs = take (length jobs - k) jobs ∧
   length (_selector (- Z.of_nat k) jobs) = (length jobs - k)%nat ∧
   _selector (- Z.of_nat k) jobs ≠ []).
Proof.
  split; [done|]. intros Hk.
  assert (Hsel : _selector (- Z.of_nat k) jobs = take (length jobs - k) jobs).
  { unfold _selector, Py.slice_to.
    rewrite bool_decide_eq_false_2 by lia. f_equal. lia. }
  rewrite Hsel. split; [done|].
  assert (Hlen : length (take (length jobs - k) jobs) = (length jobs - k)%nat).
  { rewrite length_take. lia. }
  split; [done|].
  intros Hnil. rewrite Hnil in Hlen. simpl in Hlen. lia.
Qed.

Lemma prefix_selector_negative_budget_witness :
  _selector 0 [1; 2; 3]%positive = [] ∧
  _selector (- Z.of_nat 1) [1; 2; 3]%positive
  = take (length [1; 2; 3]%positive - 1) [1; 2; 3]%positive ∧
  length (_selector (- Z.of_nat 1) [1; 2; 3]%positive)
  = (length [1; 2; 3]%positive - 1)%nat ∧
  _selector (- Z.of_nat 1) [1; 2; 3]%positive ≠ [].
Proof.
  destruct (prefix_selector_negative_budget [1; 2; 3]%positive 1) as [H0 Hk].
  split; [exact H0|]. apply Hk. simpl. lia.
Defined.

Example demo_negative_slice :
  _selector (-1) [1; 2; 3]%positive = [1; 2]%positive.
Proof. reflexivity. Qed.

(** ** The scan of the ready jobs (lines 46-57) *)

Lemma same_control_refl s : same_control s s.
Proof. by repeat split. Qed.

Lemma same_control_trans s1 s2 s3 :
  same_control s1 s2 → same_control s2 s3 → same_control s1 s3.
Proof. unfold same_control. intros ? ?. destruct_and!. repeat split; congruence. Qed.

Lemma clamp_fits maxc job :
  needrun job = true → threads (clamp maxc job) ≤ maxc.
Proof.
  intros Hn. unfold clamp. rewrite Hn. simpl.
  case_bool_decide; simpl; lia.
Qed.

Lemma clamp_needrun maxc job : needrun (clamp maxc job) = needrun job.
Proof. unfold clamp. by destruct (_ && _). Qed.

Lemma clamp_idemp maxc job : clamp maxc (clamp maxc job) = clamp maxc job.
Proof.
  destruct job as [ru t [|]]; unfold clamp; simpl; [|done].
  case_bool_decide as Ht; simpl.
  - by rewrite bool_decide_eq_false_2 by lia.
  - by rewrite bool_decide_eq_false_2 by done.
Qed.

Lemma clamp_rule maxc job : rule (clamp maxc job) = rule job.
Proof. unfold clamp. by destruct (_ && _). Qed.

Lemma clamp_nonneg maxc job :
  0 ≤ maxc → 0 ≤ threads job → 0 ≤ threads (clamp maxc job).
Proof. intros ? ?. unfold clamp. by destruct (_ && _). Qed.

Lemma clamp_small maxc job : threads job ≤ maxc → clamp maxc job = job.
Proof.
  intros H. unfold clamp. rewrite bool_decide_eq_false_2 by lia.
  by rewrite andb_false_r.
Qed.

(** One ready job: the object is clamped, the job joins the candidates
    iff it needs to run, and the only call made is the warning. *)
Lemma scan_job_inv r s acc s' acc' :
  scan_job r (s, acc) = Some (s', acc') →
  ∃ job, dag s !! r = Some job ∧
    same_control s s' ∧
    dag s' = <[r := clamp (maxcores s) job]> (dag s) ∧
    acc' = acc ++ (if needrun job then [r] else []) ∧
    trace s' = trace s ++
      (if needrun job && bool_decide (threads job > maxcores s)
          && negb (dryrun s)
       then [LogWarn (rule job) (threads job) (maxcores s)] else []).
Proof.
  unfold scan_job. destruct (dag s !! r) as [job|] eqn:Hjob; [|done].
  simpl. intros H. exists job. split; [done|].
  unfold clamp. destruct (needrun job) eqn:Hn; simpl in *.
  - case_bool_decide; simpl in *.
    + destruct (dryrun s) eqn:Hd; simpl in *; injection H as <- <-;
        simpl; rewrite ?Hd, ?Hn; repeat split; by rewrite ?app_nil_r.
    + injection H as <- <-. rewrite insert_id by (by destruct job; simplify_eq/=).
      repeat split; by rewrite ?app_nil_r.
  - injection H as <- <-. rewrite insert_id by done.
    repeat split; by rewrite ?app_nil_r.
Qed.

Lemma scan_job_total r s acc :
  is_Some (dag s !! r) → is_Some (scan_job r (s, acc)).
Proof.
  intros [job Hjob]. unfold scan_job. rewrite Hjob. simpl.
  destruct (needrun job); [case_bool_decide|]; by eexists.
Qed.

Lemma needs_run_insert_clamp h r0 job0 maxc r :
  h !! r0 = Some job0 →
  needs_run (<[r0 := clamp maxc job0]> h) r = needs_run h r.
Proof.
  intros H0. unfold needs_run. destruct (decide (r = r0)) as [->|Hne].
  - rewrite lookup_insert_eq, H0. simpl. apply clamp_needrun.
  - by rewrite lookup_insert_ne.
Qed.

Lemma scan_inv l : ∀ s acc s' acc',
  Py.for_each l scan_job (s, acc) = Some (s', acc') →
  Forall (λ r, is_Some (dag s !! r)) l ∧
  same_control s s' ∧
  (∀ r, dag s' !! r = if decide (r ∈ l)
                      then clamp (maxcores s) <$> dag s !! r
                      else dag s !! r) ∧
  acc' = acc ++ filter (λ r, needs_run (dag s) r) l ∧
  (∃ ws, trace s' = trace s ++ ws ∧ (dryrun s = true → ws = []) ∧
         Forall (λ e, ∃ a b c, e = LogWarn a b c) ws) ∧
  (dryrun s = false → ∀ r job,
     r ∈ l → dag s !! r = Some job → needrun job = true →
     threads job > maxcores s →
     LogWarn (rule job) (threads job) (maxcores s) ∈ trace s').
Proof.
  induction l as [|r0 l IH]; intros s acc s' acc' H.
  - simpl in H. injection H as <- <-.
    split; [constructor|]. split; [apply same_control_refl|].
    split; [intros r; by rewrite decide_False by apply not_elem_of_nil|].
    split; [by rewrite filter_nil, app_nil_r|].
    split; [exists []; by rewrite app_nil_r|].
    intros _ r job Hr. by apply not_elem_of_nil in Hr.
  - cbn [Py.for_each] in H.
    destruct (scan_job r0 (s, acc)) as [[s0 acc0]|] eqn:H0; [|done].
    cbn [mbind option_bind] in H.
    destruct (scan_job_inv _ _ _ _ _ H0)
      as (job0 & Hjob0 & Hctl0 & Hdag0 & Hacc0 & Htr0).
    destruct (IH _ _ _ _ H) as (Hal & Hctl & Hdag & Hacc & Htr & Hwarn).
    assert (Hmax : maxcores s0 = maxcores s) by apply Hctl0.
    assert (Hdry : dryrun s0 = dryrun s) by apply Hctl0.
    rewrite Hmax in *. rewrite Hdry in *.
    split; [|split; [|split; [|split; [|split]]]].
    + constructor; [by eexists|].
      eapply Forall_impl; [exact Hal|]. intros r. simpl.
      rewrite Hdag0. destruct (decide (r = r0)) as [->|Hne].
      * by eexists.
      * by rewrite lookup_insert_ne.
    + by eapply same_control_trans.
    + intros r. rewrite Hdag, Hdag0.
      destruct (decide (r = r0)) as [->|Hne].
      * rewrite lookup_insert_eq, Hjob0.
        rewrite (decide_True (P := r0 ∈ r0 :: l)) by left. simpl.
        destruct (decide (r0 ∈ l)); by rewrite ?clamp_idemp.
      * rewrite lookup_insert_ne by done.
        destruct (decide (r ∈ l)) as [Hin|Hin].
        -- by rewrite (decide_True (P := r ∈ r0 :: l)) by (by right).
        -- rewrite (decide_False (P := r ∈ r0 :: l)); [done|].
           intros [?|?]%elem_of_cons; done.
    + rewrite Hacc, Hacc0, <- (assoc_L (++)). f_equal.
      rewrite (list_filter_iff _ (λ r, needs_run (dag s) r)).
      2:{ intros r. rewrite Hdag0. by rewrite needs_run_insert_clamp. }
      unfold needs_run at 2.
      destruct (needrun job0) eqn:Hn.
      * rewrite filter_cons_True; [done|].
        unfold needs_run. rewrite Hjob0. simpl. by rewrite Hn.
      * rewrite filter_cons_False; [done|].
        unfold needs_run. rewrite Hjob0. simpl. rewrite Hn. simpl. tauto.
    + destruct Htr as (ws & Hws & Hnil & Hall).
      eexists. split; [rewrite Hws, Htr0, <- (assoc_L (++)); reflexivity|].
      split.
      * intros Hd. rewrite Hd, andb_false_r. simpl. by apply Hnil.
      * apply Forall_app. split; [|done].
        destruct (_ && _); repeat constructor. by do 3 eexists.
    + intros Hd r job Hr Hjob Hn Hgt.
      destruct Htr as (ws & Hws & _).
      destruct (decide (r = r0)) as [->|Hne].
      * rewrite Hws, Htr0. rewrite Hjob0 in Hjob. injection Hjob as ->.
        rewrite Hn, Hd, bool_decide_eq_true_2 by done. simpl.
        rewrite !elem_of_app, list_elem_of_singleton. auto.
      * apply (Hwarn Hd r job); [|by rewrite Hdag0, lookup_insert_ne|done..].
        apply elem_of_cons in Hr as [?|?]; done.
Qed.

Lemma scan_total l : ∀ s acc,
  Forall (λ r, is_Some (dag s !! r)) l →
  is_Some (Py.for_each l scan_job (s, acc)).
Proof.
  induction l as [|r0 l IH]; intros s acc Hal; [by eexists|].
  apply Forall_cons in Hal as [H0 Hal]. cbn [Py.for_each].
  destruct (scan_job_total r0 s acc H0) as [[s0 acc0] Hs0].
  rewrite Hs0. cbn [mbind option_bind]. apply IH.
  destruct (scan_job_inv _ _ _ _ _ Hs0) as (job0 & Hjob0 & _ & Hdag0 & _).
  eapply Forall_impl; [exact Hal|]. intros r. simpl. rewrite Hdag0.
  destruct (decide (r = r0)) as [->|Hne].
  - rewrite lookup_insert_eq. by eexists.
  - by rewrite lookup_insert_ne.
Qed.

(** ** One pass of the loop *)

Example demo_oversized :
  ∃ s', schedule_iter (init demo_store 2 false false false) [3]%positive
        = Some (s', None) ∧
        dag s' !! 3%positive = Some (mkJob "B" 2 true) ∧
        trace s' = [LogWarn "B" 3 2; StatsStart 3%positive; ExecRun 3%positive] ∧
        _cores s' = 0.
Proof. eexists. vm_compute. repeat split; reflexivity. Qed.

(** C4.  In a pass that reaches the scan (the error flag is not set), a
    ready job that needs to run and asks for more than [maxcores] threads
    leaves the scan with exactly [maxcores] threads, the warning is logged
    unless this is a dry run, and the job is among the candidates given
    to the selector. *)
Theorem oversized_job_is_clamped s ready r job :
  _errors s = false →
  Forall (λ r, is_Some (dag s !! r)) ready →
  r ∈ ready → dag s !! r = Some job →
  needrun job = true → threads job > maxcores s →
  ∃ s1 needrun_jobs,
    scan (set_open_jobs false s) ready = Some (s1, needrun_jobs) ∧
    dag s1 !! r = Some (mkJob (rule job) (maxcores s) true) ∧
    r ∈ needrun_jobs ∧
    (if dryrun s then trace s1 = trace s
     else LogWarn (rule job) (threads job) (maxcores s) ∈ trace s1) ∧
    schedule_iter s ready = (s2 ← dispatch s1 needrun_jobs; Some (s2, None)).
Proof.
  intros Herr Hal Hr Hjob Hn Hgt.
  destruct (scan_total ready (set_open_jobs false s) [] Hal)
    as [[s1 nr] Hscan].
  destruct (scan_inv _ _ _ _ _ Hscan)
    as (_ & _ & Hdag & Hnr & (ws & Hws & Hnil & _) & Hwarn).
  cbn [set_open_jobs dag maxcores dryrun trace] in *.
  assert (Hin : r ∈ nr).
  { rewrite Hnr. simpl. apply list_elem_of_filter. split; [|done].
    unfold needs_run. rewrite Hjob. simpl. by rewrite Hn. }
  exists s1, nr. split; [done|]. split; [|split; [done|split]].
  - rewrite Hdag, decide_True, Hjob by done. simpl. unfold clamp.
    rewrite Hn, bool_decide_eq_true_2 by done. done.
  - destruct (dryrun s) eqn:Hd.
    + by rewrite Hws, Hnil, app_nil_r.
    + by apply (Hwarn eq_refl r job).
  - unfold schedule_iter. cbn [set_open_jobs _errors]. rewrite Herr.
    unfold scan in Hscan. unfold scan. rewrite Hscan.
    cbn [mbind option_bind]. destruct nr; [|done].
    by apply not_elem_of_nil in Hin.
Qed.

Lemma oversized_job_is_clamped_witness :
  ∃ s1 needrun_jobs,
    scan (set_open_jobs false (init demo_store 2 false false false))
      [3]%positive = Some (s1, needrun_jobs) ∧
    dag s1 !! 3%positive = Some (mkJob "B" 2 true) ∧
    3%positive ∈ needrun_jobs ∧
    LogWarn "B" 3 2 ∈ trace s1 ∧
    schedule_iter (init demo_store 2 false false false) [3]%positive
    = (s2 ← dispatch s1 needrun_jobs; Some (s2, None)).
Proof.
  apply (oversized_job_is_clamped (init demo_store 2 false false false)
           [3]%positive 3%positive (mkJob "B" 3 true)).
  - reflexivity.
  - repeat constructor. eexists. vm_compute. reflexivity.
  - apply list_elem_of_singleton. reflexivity.
  - vm_compute. reflexivity.
  - reflexivity.
  - simpl. lia.
Defined.

Lemma scan_no_work l : ∀ s acc,
  Forall (λ r, ∃ job, dag s !! r = Some job ∧ needrun job = false) l →
  Py.for_each l scan_job (s, acc) = Some (s, acc).
Proof.
  induction l as [|r l IH]; intros s acc Hl; [done|].
  apply Forall_cons in Hl as [(job & Hjob & Hn) Hl].
  assert (Hstep : scan_job r (s, acc) = Some (s, acc)).
  { unfold scan_job. rewrite Hjob. simpl. by rewrite Hn. }
  cbn [Py.for_each]. rewrite Hstep. cbn [mbind option_bind].
  by apply IH.
Qed.

(** C6.  A pass that finds the error flag unset and no ready job that
    needs to run asks the executor to shut down and returns [True],
    without handing any job to the executor. *)
Theorem no_ready_work_returns_true s ready rest :
  _errors s = false → _open_jobs s = true →
  Forall (λ r, ∃ job, dag s !! r = Some job ∧ needrun job = false) ready →
  schedule_iter s ready
  = Some (executor_shutdown (set_open_jobs false s), Some true) ∧
  schedule (mkRound [] ready :: rest) s
  = Returned true (executor_shutdown (set_open_jobs false s)) ∧
  trace (executor_shutdown (set_open_jobs false s))
  = trace s ++ [ExecShutdown].
Proof.
  intros Herr Hopen Hready.
  assert (Hiter : schedule_iter s ready
    = Some (executor_shutdown (set_open_jobs false s), Some true)).
  { unfold schedule_iter. cbn [set_open_jobs _errors]. rewrite Herr.
    unfold scan. rewrite scan_no_work by done. done. }
  split; [done|]. split; [|done].
  cbn [schedule callbacks ready_jobs Py.for_each]. by rewrite Hopen, Hiter.
Qed.

Lemma no_ready_work_returns_true_witness :
  schedule_iter (init demo_store 4 false false false) []
  = Some (executor_shutdown
            (set_open_jobs false (init demo_store 4 false false false)),
          Some true) ∧
  schedule [mkRound [] []] (init demo_store 4 false false false)
  = Returned true
      (executor_shutdown
         (set_open_jobs false (init demo_store 4 false false false))) ∧
  trace (executor_shutdown
           (set_open_jobs false (init demo_store 4 false false false)))
  = trace (init demo_store 4 false false false) ++ [ExecShutdown].
Proof.
  apply (no_ready_work_returns_true
           (init demo_store 4 false false false) [] []).
  - reflexivity.
  - reflexivity.
  - constructor.
Defined.

(** ** The completion callback *)

Lemma dag_len_nonzero s r job : dag s !! r = Some job → dag_len s ≠ 0.
Proof.
  intros Hjob. unfold dag_len.
  pose proof (map_size_ne_0_lookup_2 (dag s) r (mk_is_Some _ _ Hjob)). lia.
Qed.

Lemma finished_inv s r job :
  dag s !! r = Some job →
  ∃ s', _finished s r = Some s' ∧
    finished_jobs s' = finished_jobs s + 1 ∧
    _cores s' = (if needrun job then _cores s + threads job else _cores s) ∧
    _open_jobs s' = true ∧
    trace s' = trace s ++ [StatsEnd r; DagFinish r] ++
      (if dryrun s then []
       else [LogInfo (finished_jobs s + 1) (dag_len s)]) ∧
    dag s' = dag s ∧ _errors s' = _errors s ∧ in_flight s' = in_flight s.
Proof.
  intros Hjob. unfold _finished. cbn [emit dag]. rewrite Hjob.
  cbn [mbind option_bind]. unfold progress.
  destruct (needrun job), (dryrun s) eqn:Hd; cbn; rewrite ?Hd;
    try (rewrite bool_decide_eq_false_2
           by (unfold dag_len; cbn; by eapply dag_len_nonzero));
    eexists; (split; [reflexivity|]); cbn; rewrite ?Hd;
    repeat split; by rewrite <- ?(assoc_L (++)).
Qed.

(** C7.  One call of [_finished] on a job adds one to [finished_jobs],
    adds the job's threads to [_cores] once if the job needed to run and
    leaves [_cores] alone otherwise, tells the graph the job is finished
    and sets the event. *)
Theorem finished_callback_effects s r job :
  dag s !! r = Some job →
  ∃ s', _finished s r = Some s' ∧
    finished_jobs s' = finished_jobs s + 1 ∧
    _cores s' = (if needrun job then _cores s + threads job else _cores s) ∧
    _open_jobs s' = true ∧
    trace s' = trace s ++ [StatsEnd r; DagFinish r] ++
      (if dryrun s then []
       else [LogInfo (finished_jobs s + 1) (dag_len s)]) ∧
    dag s' = dag s ∧ _errors s' = _errors s ∧ in_flight s' = in_flight s.
Proof. apply finished_inv. Qed.

Lemma finished_callback_effects_witness :
  ∃ s', _finished (init demo_store 4 false false false) 1%positive = Some s' ∧
    finished_jobs s' = 0 + 1 ∧
    _cores s' = 4 + 2 ∧
    _open_jobs s' = true ∧
    trace s' = [] ++ [StatsEnd 1%positive; DagFinish 1%positive] ++
                 [LogInfo (0 + 1) 3] ∧
    dag s' = demo_store ∧ _errors s' = false ∧ in_flight s' = [].
Proof.
  apply (finished_callback_effects (init demo_store 4 false false false)
           1%positive (mkJob "A" 2 true)).
  vm_compute. reflexivity.
Defined.

(** ** After an error *)


Lemma no_run_omap ws :
  Forall (λ e, ∀ r, e ≠ ExecRun r) ws →
  omap (λ e, match e with ExecRun r => Some r | _ => None end) ws = [].
Proof.
  induction 1 as [|e ws He _ IH]; [done|].
  destruct e as [| | | | | |r|]; simpl; try done. by destruct (He r).
Qed.

Lemma dispatched_trace s s' ws :
  trace s' = trace s ++ ws →
  Forall (λ e, ∀ r, e ≠ ExecRun r) ws →
  dispatched s' = dispatched s.
Proof.
  intros Htr Hws. unfold dispatched.
  rewrite Htr, omap_app, (no_run_omap ws) by done. by rewrite app_nil_r.
Qed.

Lemma error_inv s :
  _errors (_error s) = true ∧ _open_jobs (_error s) = true ∧
  trace (_error s) = trace s ∧ dag (_error s) = dag s ∧
  _cores (_error s) = _cores s ∧ in_flight (_error s) = in_flight s ∧
  maxcores (_error s) = maxcores s ∧ selector (_error s) = selector s.
Proof. by repeat split. Qed.

(** A callback never clears the error flag, never hands a job to the
    executor, and always sets the event. *)
Lemma deliver_inv cb s s' :
  deliver cb s = Some s' →
  (_errors s = true → _errors s' = true) ∧
  dispatched s' = dispatched s ∧
  _open_jobs s' = true.
Proof.
  destruct cb as [r|r]; simpl; case_decide; try done.
  - intros Hfin.
    destruct (dag s !! r) as [job|] eqn:Hjob.
    + destruct (finished_inv (set_in_flight (remove_one r (in_flight s)) s)
                  r job Hjob)
        as (s1 & Hs1 & _ & _ & Hopen & Htr & _ & Herr & _).
      rewrite Hfin in Hs1. injection Hs1 as <-.
      split; [by rewrite Herr|]. split; [|done].
      eapply dispatched_trace; [exact Htr|].
      repeat constructor; try done. destruct (dryrun _); repeat constructor; done.
    + unfold _finished in Hfin. cbn [emit set_in_flight dag] in Hfin.
      by rewrite Hjob in Hfin.
  - intros [= <-]. by repeat split.
Qed.

Lemma callbacks_inv cbs : ∀ s s',
  Py.for_each cbs deliver s = Some s' →
  (_errors s = true → _errors s' = true) ∧
  dispatched s' = dispatched s ∧
  (_open_jobs s = true → _open_jobs s' = true).
Proof.
  induction cbs as [|cb cbs IH]; intros s s' H.
  - injection H as <-. by repeat split.
  - cbn [Py.for_each] in H.
    destruct (deliver cb s) as [s0|] eqn:H0; [|done].
    cbn [mbind option_bind] in H.
    destruct (deliver_inv _ _ _ H0) as (He0 & Hd0 & Ho0).
    destruct (IH _ _ H) as (He & Hd & Ho).
    split; [auto|]. split; [congruence|auto].
Qed.

Lemma pass_with_error s ready :
  _errors s = true →
  schedule_iter s ready
  = Some (executor_shutdown
            (emit (LogWarning
                     "Will exit after finishing currently running jobs.")
               (set_open_jobs false s)), Some false).
Proof.
  intros Herr. unfold schedule_iter. cbn [set_open_jobs _errors].
  by rewrite Herr.
Qed.

Lemma step_keeps_error s s' :
  step s s' → _errors s = true → _errors s' = true.
Proof.
  intros [s0 ready s1 out _ Hpass|s0 cb s1 Hcb] Herr.
  - rewrite pass_with_error in Hpass by done. by injection Hpass as <- _.
  - by apply (deliver_inv _ _ _ Hcb).
Qed.

Lemma interrupted_nil s ready :
  schedule_iter_interrupted s ready [] = schedule_iter s ready.
Proof.
  unfold schedule_iter_interrupted, schedule_iter.
  destruct (_errors _); [done|].
  by destruct (scan _ _) as [[s1 nr]|].
Qed.







(** ** The budget of a scheduler that runs jobs locally *)

Lemma total_ext h h' l :
  Forall (λ r, h' !! r = h !! r) l → total h' l = total h l.
Proof.
  induction 1 as [|r l Hr _ IH]; simpl; [done|].
  unfold thr, job_threads. by rewrite Hr, IH.
Qed.

Lemma total_remove_one h r l :
  r ∈ l → total h (remove_one r l) = total h l - thr h r.
Proof.
  induction l as [|x l IH]; intros Hr; [by apply not_elem_of_nil in Hr|].
  simpl. case_decide as Hx; [subst; lia|].
  apply elem_of_cons in Hr as [->|Hr]; [done|].
  simpl. rewrite IH by done. lia.
Qed.

Lemma Forall_remove_one (P : positive → Prop) r l :
  Forall P l → Forall P (remove_one r l).
Proof.
  induction 1 as [|x l Hx Hl IH]; simpl; [done|].
  case_decide; [done|]. by constructor.
Qed.

Lemma dispatch_loop run : ∀ s,
  let s' := foldl (λ s job, executor_run job (emit (StatsStart job) s)) s run in
  in_flight s' = in_flight s ++ run ∧
  trace s' = trace s ++ flat_map (λ r, [StatsStart r; ExecRun r]) run ∧
  dag s' = dag s ∧ _cores s' = _cores s ∧ maxcores s' = maxcores s ∧
  selector s' = selector s ∧ _errors s' = _errors s ∧
  finished_jobs s' = finished_jobs s ∧ _open_jobs s' = _open_jobs s.
Proof.
  induction run as [|r run IH]; intros s; simpl.
  - by rewrite !app_nil_r.
  - destruct (IH (executor_run r (emit (StatsStart r) s)))
      as (-> & -> & -> & -> & -> & -> & -> & -> & ->).
    cbn. by rewrite <- !(assoc_L (++)).
Qed.

(** Lines 62-66: the counter drops by the thread total of the selected
    jobs, and exactly those jobs go to the executor. *)
Lemma dispatch_inv s needrun_jobs s' :
  dispatch s needrun_jobs = Some s' →
  ∃ run w,
    select s needrun_jobs = Some run ∧
    sum_threads (dag s) run = Some w ∧
    _cores s' = _cores s - w ∧
    in_flight s' = in_flight s ++ run ∧
    trace s' = trace s ++ flat_map (λ r, [StatsStart r; ExecRun r]) run ∧
    dag s' = dag s ∧ maxcores s' = maxcores s ∧
    selector s' = selector s ∧ _errors s' = _errors s.
Proof.
  unfold dispatch.
  destruct (select s needrun_jobs) as [run|] eqn:Hrun; [|done].
  cbn [mbind option_bind].
  destruct (sum_threads (dag s) run) as [w|] eqn:Hw; [|done].
  cbn [mbind option_bind]. intros [= <-]. exists run, w.
  destruct (dispatch_loop run (set_cores (_cores s - w) s))
    as (-> & -> & -> & -> & -> & -> & -> & _).
  by repeat split.
Qed.

Lemma budget_ok_init jobs cores :
  0 ≤ cores → (∀ r job, jobs !! r = Some job → 0 ≤ threads job) →
  budget_ok (init jobs cores false false false).
Proof.
  intros Hc Hwf. unfold budget_ok. cbn.
  repeat split; [done|done|constructor|done|lia].
Qed.

Lemma budget_ok_in_flight_nonneg s :
  budget_ok s → Forall (λ r, 0 ≤ thr (dag s) r) (in_flight s).
Proof.
  intros (_ & _ & Hwf & Hfl & _). eapply Forall_impl; [exact Hfl|].
  intros r (job & Hjob & _). rewrite (thr_lookup _ _ _ Hjob). by eapply Hwf.
Qed.

Lemma budget_ok_callback cb s s' :
  budget_ok s → deliver cb s = Some s' → budget_ok s'.
Proof.
  intros Hok Hcb.
  pose proof (budget_ok_in_flight_nonneg s Hok) as Hpos.
  destruct Hok as (Hsel & Hmax & Hwf & Hfl & Hc & Hsum).
  destruct cb as [r|r]; simpl in Hcb; case_decide as Hin; try done.
  - destruct (proj1 (Forall_forall _ _) Hfl r Hin) as (job & Hjob & Hn & Hfit).
    destruct (finished_inv (set_in_flight (remove_one r (in_flight s)) s)
                r job Hjob)
      as (s1 & Hs1 & _ & Hcores & _ & _ & Hdag & _ & Hfl1).
    rewrite Hcb in Hs1. injection Hs1 as <-.
    assert (Hmax' : maxcores s' = maxcores s ∧ selector s' = selector s).
    { unfold _finished in Hcb. cbn [emit set_in_flight dag] in Hcb.
      rewrite Hjob in Hcb. cbn [mbind option_bind] in Hcb.
      unfold progress in Hcb.
      destruct (needrun job), (dryrun s) eqn:Hd; cbn in Hcb;
        rewrite ?Hd in Hcb; cbn in Hcb;
        try (rewrite bool_decide_eq_false_2 in Hcb
               by (unfold dag_len; cbn; by eapply dag_len_nonzero));
        cbn in Hcb; by injection Hcb as <-. }
    destruct Hmax' as [Hm Hs].
    rewrite Hn in Hcores. cbn in Hcores, Hdag, Hfl1.
    pose proof (total_remove_one (dag s) r (in_flight s) Hin) as Hrem.
    pose proof (thr_lookup _ _ _ Hjob) as Hthr.
    pose proof (Hwf r job Hjob).
    unfold budget_ok. rewrite Hm, Hs, Hdag, Hfl1, Hcores.
    repeat split; [done|done|done|by apply Forall_remove_one|lia|].
    rewrite Hrem, Hthr. lia.
  - injection Hcb as <-. unfold budget_ok.
    cbn [_error set_errors set_jobs set_open_jobs set_in_flight
         selector maxcores dag in_flight _cores].
    pose proof (total_remove_one (dag s) r (in_flight s) Hin) as Hrem.
    pose proof (proj1 (Forall_forall _ _) Hpos r Hin) as Hr. simpl in Hr.
    repeat split; [done|done|done|by apply Forall_remove_one|done|].
    rewrite Hrem. lia.
Qed.

Lemma budget_ok_eq s s' :
  selector s' = selector s → maxcores s' = maxcores s → dag s' = dag s →
  in_flight s' = in_flight s → _cores s' = _cores s →
  budget_ok s → budget_ok s'.
Proof. unfold budget_ok. by intros -> -> -> -> ->. Qed.

(** The scan keeps the bookkeeping and leaves only candidates that need
    to run and fit [maxcores]. *)
Lemma budget_ok_scan s ready s1 needrun_jobs :
  budget_ok s →
  scan s ready = Some (s1, needrun_jobs) →
  budget_ok s1 ∧
  Forall (λ r, ∃ job, dag s1 !! r = Some job ∧ needrun job = true ∧
                     0 ≤ threads job ≤ maxcores s1) needrun_jobs.
Proof.
  intros (Hsel & Hmax & Hwf & Hfl & Hc & Hsum) Hscan.
  destruct (scan_inv _ _ _ _ _ Hscan)
    as (Hal & Hctl & Hdag & Hnr & _ & _).
  destruct Hctl as (_ & Hm & _ & Hco & _ & _ & Hs & _ & Hin).
  assert (Hwf1 : ∀ r job, dag s1 !! r = Some job → 0 ≤ threads job).
  { intros r job. rewrite Hdag.
    destruct (dag s !! r) as [job0|] eqn:Hjob0; [|by case_decide].
    pose proof (Hwf r job0 Hjob0).
    case_decide; intros [= <-]; [by apply clamp_nonneg|done]. }
  assert (Hkeep : Forall (λ r, dag s1 !! r = dag s !! r) (in_flight s)).
  { eapply Forall_impl; [exact Hfl|]. intros r (job & Hjob & _ & Hfit).
    simpl. rewrite Hdag, Hjob. case_decide; [|done].
    simpl. by rewrite clamp_small. }
  split.
  - unfold budget_ok. rewrite Hs, Hm, Hco, Hin.
    repeat split; [done|done|done| |done|by rewrite (total_ext _ _ _ Hkeep)].
    apply Forall_forall. intros r Hr.
    destruct (proj1 (Forall_forall _ _) Hfl r Hr) as (job & Hjob & Hn & Hfit).
    pose proof (proj1 (Forall_forall _ _) Hkeep r Hr) as Hk. simpl in Hk.
    exists job. by rewrite Hk.
  - rewrite Hnr. simpl. apply Forall_forall. intros r Hr.
    apply list_elem_of_filter in Hr as [Hneed Hr].
    unfold needs_run in Hneed.
    destruct (dag s !! r) as [job|] eqn:Hjob; [|done]. simpl in Hneed.
    apply Is_true_true in Hneed.
    exists (clamp (maxcores s) job).
    rewrite Hdag, decide_True, Hjob, Hm, clamp_needrun by done.
    split; [done|]. split; [done|]. split.
    + apply clamp_nonneg; [done|by eapply Hwf].
    + by apply clamp_fits.
Qed.

Lemma budget_ok_dispatch s needrun_jobs s' :
  budget_ok s →
  Forall (λ r, ∃ job, dag s !! r = Some job ∧ needrun job = true ∧
                     0 ≤ threads job ≤ maxcores s) needrun_jobs →
  dispatch s needrun_jobs = Some s' →
  budget_ok s'.
Proof.
  intros Hok Hnr Hdisp.
  pose proof (budget_ok_in_flight_nonneg s Hok) as Hpos.
  destruct Hok as (Hsel & Hmax & Hwf & Hfl & Hc & Hsum).
  destruct (dispatch_inv _ _ _ Hdisp)
    as (run & w & Hrun & Hw & Hco & Hin & _ & Hdag & Hm & Hs & _).
  unfold select in Hrun. rewrite Hsel in Hrun.
  destruct (_thread_based_selector (dag s) (_cores s) needrun_jobs)
    as [sol|] eqn:Hsol; [|done].
  injection Hrun as <-.
  assert (Hcand : candidates_ok (dag s) needrun_jobs).
  { eapply Forall_impl; [exact Hnr|].
    intros r (job & Hjob & _ & Hpos' & _). by exists job. }
  pose proof (selector_fits _ _ _ _ Hcand Hc Hsol) as Hfit.
  pose proof (selector_subset _ _ _ _ Hcand Hc Hsol) as Hsub.
  apply sum_threads_total in Hw as ->.
  unfold budget_ok. rewrite Hs, Hm, Hdag, Hin, Hco, total_app.
  repeat split; [done|done|done| |lia|lia].
  apply Forall_app. split; [done|].
  apply Forall_forall. intros r Hr.
  apply elem_of_elements, Hsub, elem_of_list_to_set in Hr.
  destruct (proj1 (Forall_forall _ _) Hnr r Hr) as (job & Hjob & Hn & _ & Hle).
  by exists job.
Qed.

Lemma budget_ok_pass s ready s' out :
  budget_ok s → schedule_iter s ready = Some (s', out) → budget_ok s'.
Proof.
  intros Hok. unfold schedule_iter. cbn [set_open_jobs _errors].
  destruct (_errors s).
  - intros [= <- _]. by eapply budget_ok_eq; [..|exact Hok].
  - destruct (scan (set_open_jobs false s) ready) as [[s1 nr]|] eqn:Hscan;
      [|done].
    cbn [mbind option_bind].
    assert (Hok0 : budget_ok (set_open_jobs false s))
      by (by eapply budget_ok_eq; [..|exact Hok]).
    destruct (budget_ok_scan _ _ _ _ Hok0 Hscan) as [Hok1 Hnr].
    destruct nr as [|r nr].
    + intros [= <- _]. by eapply budget_ok_eq; [..|exact Hok1].
    + destruct (dispatch s1 (r :: nr)) as [s2|] eqn:Hdisp; [|done].
      cbn [mbind option_bind]. intros [= <- _].
      by eapply budget_ok_dispatch.
Qed.

Lemma budget_ok_reachable s0 s :
  budget_ok s0 → reachable s0 s → budget_ok s.
Proof.
  intros Hok Hreach. induction Hreach as [|x y z Hxy _ IH]; [done|].
  apply IH. destruct Hxy as [x ready y out _ Hpass|x cb y Hcb].
  - by eapply budget_ok_pass.
  - by eapply budget_ok_callback.
Qed.

Lemma demo_pass_reachable dryrun touch cluster :
  reachable (init demo_store 4 dryrun touch cluster)
    (demo_pass dryrun touch cluster).
Proof.
  unfold demo_pass.
  destruct (schedule_iter (init demo_store 4 dryrun touch cluster)
              [1; 2; 3]%positive) as [[s out]|] eqn:Hpass; [|apply rtc_refl].
  apply rtc_once. by eapply step_pass.
Qed.

Lemma demo_store_nonneg r job :
  demo_store !! r = Some job → 0 ≤ threads job.
Proof.
  unfold demo_store. intros H.
  repeat (apply lookup_insert_Some in H as [[_ <-]|[_ H]]; [simpl; lia|]).
  by rewrite lookup_empty in H.
Qed.

(** C2, as the code has it: for a scheduler that runs its jobs locally
    (the knapsack selector), with [maxcores] and every thread requirement
    not negative, and for the executions in which passes and callbacks
    run one at a time ([reachable]; the source takes no lock to enforce
    it).  In every such state the counter is between [0] and [maxcores],
    and so is the thread total of the jobs handed to the executor and not
    yet reported.  In any state at all, a dispatch takes the selected
    jobs' thread total off the counter and the completion of a job that
    needed to run puts that job's threads back. *)
Theorem local_budget_invariant :
  (∀ jobs cores s,
     0 ≤ cores →
     (∀ r job, jobs !! r = Some job → 0 ≤ threads job) →
     reachable (init jobs cores false false false) s →
     0 ≤ _cores s ≤ maxcores s ∧
     ∃ outstanding, sum_threads (dag s) (in_flight s) = Some outstanding ∧
                    0 ≤ outstanding ≤ maxcores s) ∧
  (∀ s needrun_jobs s', dispatch s needrun_jobs = Some s' →
     ∃ run w, select s needrun_jobs = Some run ∧
              sum_threads (dag s) run = Some w ∧
              _cores s' = _cores s - w) ∧
  (∀ s r job s', dag s !! r = Some job → needrun job = true →
     _finished s r = Some s' → _cores s' = _cores s + threads job).
Proof.
  split; [|split].
  - intros jobs cores s Hc Hwf Hreach.
    pose proof (budget_ok_reachable _ _
                  (budget_ok_init jobs cores Hc Hwf) Hreach) as Hok.
    pose proof (total_nonneg _ _ (budget_ok_in_flight_nonneg s Hok)) as Hpos.
    destruct Hok as (_ & _ & _ & Hfl & Hco & Hsum).
    split; [lia|]. exists (total (dag s) (in_flight s)). split; [|lia].
    apply sum_threads_Some. eapply Forall_impl; [exact Hfl|].
    intros r (job & Hjob & _). by exists job.
  - intros s nr s' Hdisp.
    destruct (dispatch_inv _ _ _ Hdisp) as (run & w & ? & ? & ? & _).
    by exists run, w.
  - intros s r job s' Hjob Hn Hfin.
    destruct (finished_inv s r job Hjob) as (s1 & Hs1 & _ & Hcores & _).
    rewrite Hfin in Hs1. injection Hs1 as <-. by rewrite Hn in Hcores.
Qed.

Lemma local_budget_invariant_witness :
  (0 ≤ _cores (demo_pass false false false)
     ≤ maxcores (demo_pass false false false) ∧
   ∃ outstanding,
     sum_threads (dag (demo_pass false false false))
       (in_flight (demo_pass false false false)) = Some outstanding ∧
     0 ≤ outstanding ≤ maxcores (demo_pass false false false)) ∧
  (∃ run w,
     select (set_open_jobs false (init demo_store 4 false false true))
       [1; 2; 3]%positive = Some run ∧
     sum_threads demo_store run = Some w ∧
     _cores (demo_pass false false true) = 4 - w) ∧
  _cores demo_finished = 4 + 2.
Proof.
  destruct local_budget_invariant as (Hinv & Hdisp & Hfin).
  split; [|split].
  - apply (Hinv demo_store 4 (demo_pass false false false)).
    + lia.
    + exact demo_store_nonneg.
    + exact (demo_pass_reachable false false false).
  - apply (Hdisp (set_open_jobs false (init demo_store 4 false false true))
             [1; 2; 3]%positive (demo_pass false false true)).
    vm_compute. reflexivity.
  - apply (Hfin (init demo_store 4 false false false) 1%positive
             (mkJob "A" 2 true) demo_finished).
    + vm_compute. reflexivity.
    + reflexivity.
    + vm_compute. reflexivity.
Defined.

Example demo_local_pass :
  _cores (demo_pass false false false) = 0 ∧
  in_flight (demo_pass false false false) = [2; 1]%positive.
Proof. vm_compute. split; reflexivity. Qed.

(** C2 as stated fails for the other executors: with four cores and a
    cluster executor, one pass over the ready jobs A, C and B (2, 2 and 3
    threads) hands all three to the executor and leaves the counter at
    [-3], with seven threads outstanding. *)
Lemma cluster_budget_overdrawn :
  reachable (init demo_store 4 false false true) (demo_pass false false true) ∧
  maxcores (demo_pass false false true) = 4 ∧
  _cores (demo_pass false false true) = -3 ∧
  in_flight (demo_pass false false true) = [1; 2; 3]%positive ∧
  sum_threads (dag (demo_pass false false true))
    (in_flight (demo_pass false false true)) = Some 7 ∧
  ¬ (0 ≤ _cores (demo_pass false false true)
       ≤ maxcores (demo_pass false false true)).
Proof.
  split; [apply demo_pass_reachable|].
  vm_compute. repeat split; try reflexivity. intros [H _]. by apply H.
Qed.

(** * Further properties of the selectors *)

Lemma index_elem_of {A} (l : list A) (i : Z) (x : A) :
  Py.index l i = Some x → x ∈ l.
Proof.
  unfold Py.index. repeat case_bool_decide; try done;
    intros Hx; by eapply list_elem_of_lookup_2.
Qed.

Lemma backtrack_subset h jobs K (i : nat) : ∀ j solution sol,
  backtrack h jobs K i j solution = Some sol →
  sol ⊆ solution ∪ list_to_set jobs.
Proof.
  induction i as [|i IH]; intros j solution sol.
  - intros [= <-]. apply union_subseteq_l.
  - cbn [backtrack].
    destruct (tget K (Z.of_nat (S i)) j) as [a|]; [|done].
    cbn [mbind option_bind].
    destruct (tget K (Z.of_nat (S i) - 1) j) as [b|]; [|done].
    cbn [mbind option_bind]. case_bool_decide.
    + destruct (Py.index jobs (Z.of_nat (S i) - 1)) as [r|] eqn:Hr; [|done].
      cbn [mbind option_bind].
      destruct (job_threads h r) as [t|]; [|done].
      cbn [mbind option_bind]. intros Hb. apply IH in Hb.
      apply index_elem_of in Hr.
      intros x Hx. apply Hb in Hx.
      apply elem_of_union in Hx as [Hx|Hx]; [|set_solver].
      apply elem_of_union in Hx as [Hx|Hx]; [set_solver|].
      apply elem_of_singleton in Hx as ->.
      apply elem_of_union_r. by apply elem_of_list_to_set.
    + apply IH.
Qed.

Lemma select_subset s needrun_jobs run :
  select s needrun_jobs = Some run →
  ∀ r, r ∈ run → r ∈ needrun_jobs.
Proof.
  unfold select. destruct (selector s).
  - intros [= <-] r. unfold _selector, Py.slice_to.
    case_bool_decide; intros Hr;
      apply elem_of_take in Hr as (k & Hk & _);
      by eapply list_elem_of_lookup_2.
  - destruct (_thread_based_selector (dag s) (_cores s) needrun_jobs)
      as [sol|] eqn:Hsol; [|done].
    intros [= <-] r Hr. apply elem_of_elements in Hr.
    unfold _thread_based_selector in Hsol.
    destruct (fill_table _ _ _ _ _) as [K|]; [|done].
    cbn [mbind option_bind] in Hsol.
    apply backtrack_subset in Hsol. apply Hsol in Hr.
    apply elem_of_union in Hr as [Hr|Hr]; [set_solver|].
    by apply elem_of_list_to_set in Hr.
Qed.

(** Whatever the budget and the store, a selector that returns hands
    back candidates only: the slice is a prefix of the list, and every job
    in the knapsack's set was in the list. *)
Theorem select_only_candidates s needrun_jobs run :
  select s needrun_jobs = Some run →
  ∀ r, r ∈ run → r ∈ needrun_jobs.
Proof. apply select_subset. Qed.

Lemma select_only_candidates_witness :
  2%positive ∈ [1; 2; 3]%positive.
Proof.
  apply (select_only_candidates
           (init demo_store 2 true false false) [1; 2; 3]%positive
           [1; 2]%positive).
  - reflexivity.
  - apply (bool_decide_unpack _). vm_compute. exact I.
Defined.

(** A remaining-core counter below zero makes the knapsack selector
    raise on any candidate: the rows of [K] are empty and line 102
    indexes into one. *)
Theorem knapsack_negative_budget_raises h cores jobs :
  cores < 0 → jobs ≠ [] →
  _thread_based_selector h cores jobs = None.
Proof.
  intros Hc Hjobs. unfold _thread_based_selector, fill_table.
  rewrite (range_nil 1 (cores + 1)) by lia.
  cbn [Py.for_each]. rewrite for_each_skip. cbn [mbind option_bind].
  replace (Z.to_nat (cores + 1)) with 0%nat by lia.
  replace (Z.to_nat (Z.of_nat (length jobs) + 1 - 1)) with (length jobs)
    by lia.
  replace (Z.to_nat (Z.of_nat (length jobs) + 1)) with (S (length jobs))
    by lia.
  destruct jobs as [|r jobs]; [done|].
  assert (Hget : tget (replicate (S (length (r :: jobs))) (replicate 0 0))
                   (Z.of_nat (length (r :: jobs))) (cores + 1 - 1) = None).
  { unfold tget. rewrite index_nat, lookup_replicate_2 by lia.
    cbn [mbind option_bind replicate]. unfold Py.index. cbn [length].
    rewrite bool_decide_eq_false_2 by lia.
    by rewrite bool_decide_eq_false_2 by lia. }
  cbn [length backtrack] in *. by rewrite Hget.
Qed.

Lemma knapsack_negative_budget_raises_witness :
  _thread_based_selector demo_store (-3) [1; 2; 3]%positive = None.
Proof.
  apply (knapsack_negative_budget_raises demo_store (-3) [1; 2; 3]%positive).
  - lia.
  - discriminate.
Defined.

Lemma cell_ge_candidate h jobs j r :
  candidates_ok h jobs → r ∈ jobs → thr h r ≤ j →
  thr h r ≤ cell h jobs (length jobs) j.
Proof.
  intros Hok Hr Hfit.
  pose proof (cell_optimal h jobs (length jobs) j [r] Hok) as Hopt.
  simpl in Hopt. rewrite take_ge in Hopt by done.
  rewrite Z.add_0_r in Hopt. apply Hopt; [|done].
  by apply singleton_submseteq_l.
Qed.

Lemma selector_nonempty h cores jobs r t :
  candidates_ok h jobs → r ∈ jobs →
  job_threads h r = Some t → 0 < t ≤ cores →
  ∃ sol, _thread_based_selector h cores jobs = Some sol ∧ sol ≠ ∅.
Proof.
  intros Hok Hr Ht Hfit.
  assert (Hthr : thr h r = t) by (unfold thr; by rewrite Ht).
  rewrite selector_reconstruct by (done || lia).
  eexists. split; [reflexivity|]. intros Hempty.
  pose proof (total_reconstruct h jobs (length jobs) cores Hok) as Htot.
  pose proof (cell_ge_candidate h jobs cores r Hok Hr) as Hge.
  destruct (reconstruct h jobs (length jobs) cores) as [|x l] eqn:Hl.
  - simpl in Htot. lia.
  - assert (x ∈ (∅ : gset positive)) as Hx; [|by apply not_elem_of_empty in Hx].
    rewrite <- Hempty. apply elem_of_list_to_set. by left.
Qed.

(** When some candidate needs at least one thread and fits the budget on
    its own, the knapsack selector does not come back empty. *)
Theorem knapsack_selects_something h cores jobs r t :
  candidates_ok h jobs → r ∈ jobs →
  job_threads h r = Some t → 0 < t ≤ cores →
  ∃ sol, _thread_based_selector h cores jobs = Some sol ∧ sol ≠ ∅.
Proof. apply selector_nonempty. Qed.

Lemma knapsack_selects_something_witness :
  ∃ sol, _thread_based_selector demo_store 3 [1; 2; 3]%positive = Some sol ∧
         sol ≠ ∅.
Proof.
  apply (knapsack_selects_something demo_store 3 [1; 2; 3]%positive
           3%positive 3).
  - exact demo_candidates_ok.
  - apply (bool_decide_unpack _). vm_compute. exact I.
  - vm_compute. reflexivity.
  - lia.
Defined.

(** When the candidates, each needing at least one thread, fit the
    budget together, the knapsack selector takes all of them. *)
Theorem knapsack_takes_all_that_fit h cores jobs w :
  Forall (λ r, ∃ job, h !! r = Some job ∧ 1 ≤ threads job) jobs →
  sum_threads h jobs = Some w → w ≤ cores →
  _thread_based_selector h cores jobs = Some (list_to_set jobs).
Proof.
  intros Hpos Hw Hfit. apply sum_threads_total in Hw as ->.
  assert (Hok : candidates_ok h jobs).
  { eapply Forall_impl; [exact Hpos|].
    intros r (job & Hjob & Hge). exists job. split; [done|lia]. }
  assert (Hone : Forall (λ r, 1 ≤ thr h r) jobs).
  { eapply Forall_impl; [exact Hpos|].
    intros r (job & Hjob & Hge). by rewrite (thr_lookup _ _ _ Hjob). }
  pose proof (total_nonneg _ _ (candidates_ok_nonneg _ _ Hok)) as Hnn.
  rewrite selector_reconstruct by (done || lia). f_equal.
  set (l := reconstruct h jobs (length jobs) cores).
  destruct (submseteq_Permutation _ _
              (reconstruct_submseteq h jobs (length jobs) cores))
    as [k Hk]. fold l in Hk.
  assert (Htot : total h l = cell h jobs (length jobs) cores)
    by (apply total_reconstruct; [done|lia]).
  assert (Hopt : total h jobs ≤ cell h jobs (length jobs) cores).
  { apply cell_optimal; [done| |done]. by rewrite take_ge. }
  assert (Hsplit : total h jobs = total h l + total h k)
    by (by rewrite Hk, total_app).
  rewrite Hk in Hone. apply Forall_app in Hone as [_ Hone].
  destruct k as [|x k].
  - by rewrite Hk, app_nil_r.
  - apply Forall_cons in Hone as [Hx Hone].
    assert (0 ≤ total h k).
    { apply total_nonneg. eapply Forall_impl; [exact Hone|].
      intros y Hy. simpl in Hy. lia. }
    simpl in Hsplit. lia.
Qed.

Lemma knapsack_takes_all_that_fit_witness :
  _thread_based_selector demo_store 7 [1; 2; 3]%positive
  = Some (list_to_set [1; 2; 3]%positive).
Proof.
  apply (knapsack_takes_all_that_fit demo_store 7 [1; 2; 3]%positive 7).
  - repeat constructor; eexists; (split; [vm_compute; reflexivity|simpl; lia]).
  - vm_compute. reflexivity.
  - lia.
Defined.

Lemma selector_total h cores jobs :
  NoDup jobs → candidates_ok h jobs → 0 ≤ cores →
  ∃ sol, _thread_based_selector h cores jobs = Some sol ∧
         sum_threads h (elements sol)
         = Some (cell h jobs (length jobs) cores).
Proof.
  intros Hnd Hok Hc. rewrite selector_reconstruct by done.
  eexists. split; [reflexivity|].
  set (l := reconstruct h jobs (length jobs) cores).
  assert (Hperm : elements (list_to_set (C := gset positive) l) ≡ₚ l)
    by apply elements_list_to_set, reconstruct_NoDup, Hnd.
  rewrite sum_threads_Some.
  - f_equal. rewrite (total_perm h _ _ Hperm). by apply total_reconstruct.
  - apply Forall_forall. intros x Hx. rewrite Hperm in Hx.
    eapply (proj1 (Forall_forall _ _) (candidates_ok_alloc _ _ Hok)).
    eapply elem_of_submseteq; [done|apply reconstruct_submseteq].
Qed.

Lemma cell_perm_le h jobs jobs' cores :
  jobs ≡ₚ jobs' → candidates_ok h jobs → 0 ≤ cores →
  cell h jobs (length jobs) cores ≤ cell h jobs' (length jobs') cores.
Proof.
  intros Hp Hok Hc.
  rewrite <- (total_reconstruct h jobs (length jobs) cores) by done.
  apply cell_optimal.
  - unfold candidates_ok. by rewrite <- Hp.
  - rewrite take_ge by done. rewrite <- Hp. apply reconstruct_submseteq.
  - rewrite total_reconstruct by done. by apply cell_bounds.
Qed.

(** The order of the candidates decides which jobs the knapsack selector
    picks, but not how many threads they use: two orderings of the same
    distinct candidates give selections with the same thread total. *)
Theorem knapsack_total_order_independent h cores jobs jobs' :
  jobs ≡ₚ jobs' → NoDup jobs → candidates_ok h jobs → 0 ≤ cores →
  ∃ sol sol' w,
    _thread_based_selector h cores jobs = Some sol ∧
    _thread_based_selector h cores jobs' = Some sol' ∧
    sum_threads h (elements sol) = Some w ∧
    sum_threads h (elements sol') = Some w.
Proof.
  intros Hp Hnd Hok Hc.
  assert (Hnd' : NoDup jobs') by (by rewrite <- Hp).
  assert (Hok' : candidates_ok h jobs')
    by (unfold candidates_ok; by rewrite <- Hp).
  destruct (selector_total h cores jobs Hnd Hok Hc) as (sol & Hsol & Hw).
  destruct (selector_total h cores jobs' Hnd' Hok' Hc) as (sol' & Hsol' & Hw').
  exists sol, sol', (cell h jobs (length jobs) cores).
  split; [done|]. split; [done|]. split; [done|].
  rewrite Hw'. f_equal.
  pose proof (cell_perm_le h jobs jobs' cores Hp Hok Hc).
  pose proof (cell_perm_le h jobs' jobs cores (symmetry Hp) Hok' Hc).
  lia.
Qed.

Lemma knapsack_total_order_independent_witness :
  ∃ sol sol' w,
    _thread_based_selector demo_store 4 [1; 2; 3]%positive = Some sol ∧
    _thread_based_selector demo_store 4 [3; 2; 1]%positive = Some sol' ∧
    sum_threads demo_store (elements sol) = Some w ∧
    sum_threads demo_store (elements sol') = Some w.
Proof.
  apply (knapsack_total_order_independent demo_store 4
           [1; 2; 3]%positive [3; 2; 1]%positive).
  - exact (reverse_Permutation [3; 2; 1]%positive).
  - apply (bool_decide_unpack _). vm_compute. exact I.
  - exact demo_candidates_ok.
  - lia.
Defined.

(** * Further properties of the loop and the callbacks *)

Lemma finished_frame s r s' :
  _finished s r = Some s' →
  dag s' = dag s ∧ maxcores s' = maxcores s ∧ selector s' = selector s ∧
  dryrun s' = dryrun s ∧ in_flight s' = in_flight s.
Proof.
  unfold _finished. cbn [emit dag].
  destruct (dag s !! r) as [job|]; [|done]. cbn [mbind option_bind].
  unfold progress.
  destruct (needrun job), (dryrun s) eqn:Hd; cbn; rewrite ?Hd; cbn;
    try case_bool_decide; try done; by intros [= <-].
Qed.

Lemma deliver_frame cb s s' :
  deliver cb s = Some s' →
  dag s' = dag s ∧ maxcores s' = maxcores s ∧ selector s' = selector s ∧
  dryrun s' = dryrun s.
Proof.
  destruct cb as [r|r]; simpl; case_decide; try done.
  - intros Hfin.
    by destruct (finished_frame _ _ _ Hfin) as (-> & -> & -> & -> & _).
  - by intros [= <-].
Qed.

Lemma dispatch_loop_frame run : ∀ s,
  let s' := foldl (λ s job, executor_run job (emit (StatsStart job) s)) s run in
  dryrun s' = dryrun s ∧ _jobs s' = _jobs s.
Proof.
  induction run as [|r run IH]; intros s; simpl; [done|].
  by destruct (IH (executor_run r (emit (StatsStart r) s))) as [-> ->].
Qed.

Lemma dispatch_frame s needrun_jobs s' :
  dispatch s needrun_jobs = Some s' →
  _open_jobs s' = _open_jobs s ∧ finished_jobs s' = finished_jobs s ∧
  dryrun s' = dryrun s.
Proof.
  unfold dispatch. destruct (select s needrun_jobs) as [run|]; [|done].
  cbn [mbind option_bind].
  destruct (sum_threads (dag s) run) as [w|]; [|done].
  cbn [mbind option_bind]. intros [= <-].
  destruct (dispatch_loop run (set_cores (_cores s - w) s))
    as (_ & _ & _ & _ & _ & _ & _ & -> & ->).
  by destruct (dispatch_loop_frame run (set_cores (_cores s - w) s)) as [-> _].
Qed.

Lemma dispatched_flat_map s s' run :
  trace s' = trace s ++ flat_map (λ r, [StatsStart r; ExecRun r]) run →
  dispatched s' = dispatched s ++ run.
Proof.
  intros Htr. unfold dispatched. rewrite Htr, omap_app. f_equal.
  clear. induction run as [|r run IH]; [done|].
  cbn [flat_map app omap list_omap]. by f_equal.
Qed.

(** What any pass does to the attributes and to the trace. *)
Lemma pass_inv s ready s' out :
  schedule_iter s ready = Some (s', out) →
  _open_jobs s' = false ∧ _errors s' = _errors s ∧
  finished_jobs s' = finished_jobs s ∧ maxcores s' = maxcores s ∧
  selector s' = selector s ∧ dryrun s' = dryrun s ∧
  ∃ ws, trace s' = trace s ++ ws ∧
    Forall (λ e, ∀ r, e ≠ DagFinish r ∧ e ≠ StatsEnd r) ws ∧
    match out with
    | Some b => b = negb (_errors s) ∧ last ws = Some ExecShutdown ∧
                dispatched s' = dispatched s
    | None => _errors s = false
    end.
Proof.
  unfold schedule_iter. cbn [set_open_jobs _errors].
  destruct (_errors s) eqn:Herr.
  - intros [= <- <-]. cbn. rewrite Herr. repeat split.
    eexists. split; [by rewrite <- (assoc_L (++))|].
    split; [by repeat constructor|]. repeat split.
    unfold dispatched. cbn. rewrite !omap_app. cbn. by rewrite !app_nil_r.
  - destruct (scan (set_open_jobs false s) ready) as [[s1 nr]|] eqn:Hscan;
      [|done].
    cbn [mbind option_bind].
    destruct (scan_inv _ _ _ _ _ Hscan)
      as (_ & Hctl & _ & _ & (ws & Hws & _ & Hwarn) & _).
    destruct Hctl as (Hd & Hm & Hf & _ & Ho & He & Hs & _ & _).
    cbn [set_open_jobs dryrun maxcores finished_jobs _open_jobs _errors
         selector trace] in *.
    assert (Hws' : Forall (λ e, ∀ r, e ≠ DagFinish r ∧ e ≠ StatsEnd r) ws).
    { eapply Forall_impl; [exact Hwarn|]. by intros e (a & b & c & ->). }
    destruct nr as [|r nr].
    + intros [= <- <-]. cbn. rewrite Ho, He, Hf, Hm, Hs, Hd, Herr.
      repeat split. exists (ws ++ [ExecShutdown]).
      split; [by rewrite Hws, <- (assoc_L (++))|].
      split; [apply Forall_app; split; [done|by repeat constructor]|].
      split; [done|]. split; [by rewrite last_snoc|].
      unfold dispatched. cbn. rewrite Hws, !omap_app. cbn.
      rewrite app_nil_r. rewrite (no_run_omap ws), app_nil_r; [done|].
      eapply Forall_impl; [exact Hwarn|]. by intros e (a & b & c & ->).
    + destruct (dispatch s1 (r :: nr)) as [s2|] eqn:Hdisp; [|done].
      cbn [mbind option_bind]. intros [= <- <-].
      destruct (dispatch_inv _ _ _ Hdisp)
        as (run & w & _ & _ & _ & _ & Htr & _ & Hm2 & Hs2 & He2).
      destruct (dispatch_frame _ _ _ Hdisp) as (Ho2 & Hf2 & Hd2).
      rewrite Ho2, He2, Hf2, Hm2, Hs2, Hd2, Ho, He, Hf, Hm, Hs, Hd, Herr.
      repeat split.
      exists (ws ++ flat_map (λ r, [StatsStart r; ExecRun r]) run).
      split; [by rewrite Htr, Hws, <- (assoc_L (++))|]. split; [|done].
      apply Forall_app. split; [done|].
      clear. induction run as [|x run IH]; simpl; [done|].
      by repeat constructor.
Qed.

(** Any pass, whatever it finds, leaves the event cleared, so the loop
    blocks in [wait] until a callback sets it again; a pass never changes
    [finished_jobs] or the error flag, and never reports a job to the
    graph or to the statistics as ended. *)
Theorem pass_leaves_event_clear s ready s' out :
  schedule_iter s ready = Some (s', out) →
  _open_jobs s' = false ∧ _errors s' = _errors s ∧
  finished_jobs s' = finished_jobs s ∧
  ∃ ws, trace s' = trace s ++ ws ∧
        Forall (λ e, ∀ r, e ≠ DagFinish r ∧ e ≠ StatsEnd r) ws.
Proof.
  intros H. destruct (pass_inv _ _ _ _ H)
    as (Ho & He & Hf & _ & _ & _ & ws & Hws & Hall & _).
  repeat split; try done. by exists ws.
Qed.

Lemma pass_leaves_event_clear_witness :
  _open_jobs (demo_pass false false false) = false ∧
  _errors (demo_pass false false false) = false ∧
  finished_jobs (demo_pass false false false) = 0 ∧
  ∃ ws, trace (demo_pass false false false) = [] ++ ws ∧
        Forall (λ e, ∀ r, e ≠ DagFinish r ∧ e ≠ StatsEnd r) ws.
Proof.
  apply (pass_leaves_event_clear (init demo_store 4 false false false)
           [1; 2; 3]%positive (demo_pass false false false) None).
  vm_compute. reflexivity.
Defined.

(** What a pass returns is decided by the error flag as line 41 reads it
    and by the scan: [False] when the flag is set; otherwise [True] when
    no ready job needs to run, and no return (the loop goes back to
    [wait]) when one does.  A pass that returns has just asked the
    executor to shut down and has handed it no job. *)
Theorem pass_outcome s ready s' out :
  schedule_iter s ready = Some (s', out) →
  out = (if _errors s then Some false
         else match filter (λ r, needs_run (dag s) r) ready with
              | [] => Some true
              | _ :: _ => None
              end) ∧
  (∀ b, out = Some b →
        last (trace s') = Some ExecShutdown ∧
        dispatched s' = dispatched s).
Proof.
  intros Hpass. split.
  - revert Hpass. unfold schedule_iter. cbn [set_open_jobs _errors].
    destruct (_errors s); [by intros [= _ <-]|].
    destruct (scan (set_open_jobs false s) ready) as [[s1 nr]|] eqn:Hscan;
      [|done].
    cbn [mbind option_bind].
    destruct (scan_inv _ _ _ _ _ Hscan) as (_ & _ & _ & Hnr & _).
    cbn [set_open_jobs dag] in Hnr. simpl in Hnr. rewrite <- Hnr.
    destruct nr; [by intros [= _ <-]|].
    destruct (dispatch s1 _); [|done]. by intros [= _ <-].
  - intros b ->.
    destruct (pass_inv _ _ _ _ Hpass)
      as (_ & _ & _ & _ & _ & _ & ws & Hws & _ & _ & Hlast & Hd).
    split; [|done]. rewrite Hws.
    destruct ws as [|e ws _] using rev_ind; [done|].
    rewrite last_snoc in Hlast. injection Hlast as ->.
    by rewrite (assoc_L (++)), last_snoc.
Qed.

Lemma pass_outcome_witness :
  Some true
  = (if _errors (init demo_store 4 false false false) then Some false
     else match filter (λ r, needs_run
                               (dag (init demo_store 4 false false false)) r)
                  [] with
          | [] => Some true
          | _ :: _ => None
          end) ∧
  last (trace (executor_shutdown
                 (set_open_jobs false (init demo_store 4 false false false))))
  = Some ExecShutdown ∧
  dispatched (executor_shutdown
                (set_open_jobs false (init demo_store 4 false false false)))
  = dispatched (init demo_store 4 false false false).
Proof.
  destruct (pass_outcome (init demo_store 4 false false false) []
              (executor_shutdown
                 (set_open_jobs false (init demo_store 4 false false false)))
              (Some true) eq_refl) as [Hout Hret].
  split; [exact Hout|]. exact (Hret true eq_refl).
Defined.

(** The candidates a scan leaves need to run and fit [maxcores]. *)
Lemma scan_candidates s ready s1 needrun_jobs :
  scan s ready = Some (s1, needrun_jobs) →
  Forall (λ r, r ∈ ready ∧
               ∃ job, dag s1 !! r = Some job ∧ needrun job = true ∧
                      threads job ≤ maxcores s) needrun_jobs.
Proof.
  intros Hscan.
  destruct (scan_inv _ _ _ _ _ Hscan) as (_ & _ & Hdag & Hnr & _ & _).
  rewrite Hnr. simpl. apply Forall_forall. intros r Hr.
  apply list_elem_of_filter in Hr as [Hneed Hr]. split; [done|].
  unfold needs_run in Hneed.
  destruct (dag s !! r) as [job|] eqn:Hjob; [|done]. simpl in Hneed.
  apply Is_true_true in Hneed.
  exists (clamp (maxcores s) job).
  rewrite Hdag, decide_True, Hjob, clamp_needrun by done.
  split; [done|]. split; [done|]. by apply clamp_fits.
Qed.

(** What a pass does to the store, the counter and the executor. *)
Lemma pass_detail s ready s' out :
  schedule_iter s ready = Some (s', out) →
  ∃ run w,
    dispatched s' = dispatched s ++ run ∧
    in_flight s' = in_flight s ++ run ∧
    sum_threads (dag s') run = Some w ∧
    _cores s' = _cores s - w ∧
    (∀ r, dag s' !! r = if decide (_errors s = false ∧ r ∈ ready)
                        then clamp (maxcores s) <$> dag s !! r
                        else dag s !! r) ∧
    Forall (λ r, r ∈ ready ∧
                 ∃ job, dag s' !! r = Some job ∧ needrun job = true ∧
                        threads job ≤ maxcores s) run.
Proof.
  intros Hpass.
  destruct (pass_inv _ _ _ _ Hpass)
    as (_ & _ & _ & _ & _ & _ & ws0 & _ & _ & Hout).
  revert Hpass. unfold schedule_iter. cbn [set_open_jobs _errors].
  destruct (_errors s) eqn:Herr.
  - intros [= <- <-]. destruct Hout as (_ & _ & Hd).
    exists [], 0. rewrite !app_nil_r. cbn in Hd |- *.
    split; [done|]. split; [done|]. split; [done|]. split; [lia|].
    split; [|done]. intros r. rewrite decide_False; [done|].
    by intros [? _].
  - destruct (scan (set_open_jobs false s) ready) as [[s1 nr]|] eqn:Hscan;
      [|done].
    cbn [mbind option_bind].
    pose proof (scan_candidates _ _ _ _ Hscan) as Hcand.
    destruct (scan_inv _ _ _ _ _ Hscan)
      as (_ & Hctl & Hdag & _ & (ws & Hws & _ & Hwarn) & _).
    destruct Hctl as (_ & _ & _ & Hco & _ & _ & _ & _ & Hfl).
    cbn [set_open_jobs dag maxcores _cores in_flight trace] in *.
    assert (Hd1 : dispatched s1 = dispatched s).
    { unfold dispatched. rewrite Hws, omap_app, (no_run_omap ws).
      - by rewrite app_nil_r.
      - eapply Forall_impl; [exact Hwarn|]. by intros e (a & b & c & ->). }
    assert (Hdag' : ∀ r, dag s1 !! r
              = if decide (false = false ∧ r ∈ ready)
                then clamp (maxcores s) <$> dag s !! r else dag s !! r).
    { intros r. rewrite Hdag.
      destruct (decide (r ∈ ready)).
      - by rewrite decide_True.
      - rewrite decide_False; [done|]. by intros [_ ?]. }
    destruct nr as [|r0 nr].
    + intros [= <- <-]. destruct Hout as (_ & _ & Hd).
      exists [], 0. rewrite !app_nil_r. cbn in Hd |- *.
      split; [done|]. split; [done|]. split; [done|]. split; [lia|].
      split; [done|]. done.
    + destruct (dispatch s1 (r0 :: nr)) as [s2|] eqn:Hdisp; [|done].
      cbn [mbind option_bind]. intros [= <- <-].
      destruct (dispatch_inv _ _ _ Hdisp)
        as (run & w & Hrun & Hw & Hco2 & Hfl2 & Htr & Hdag2 & _).
      exists run, w. rewrite Hdag2.
      split; [by rewrite (dispatched_flat_map _ _ _ Htr), Hd1|].
      split; [by rewrite Hfl2, Hfl|]. split; [done|].
      split; [by rewrite Hco2, Hco|]. split; [done|].
      apply Forall_forall. intros r Hr.
      apply (select_subset _ _ _ Hrun) in Hr.
      by apply (proj1 (Forall_forall _ _) Hcand r Hr).
Qed.

Lemma reachable_inv (P : JobScheduler → Prop) s0 s :
  P s0 → (∀ x y, P x → step x y → P y) → reachable s0 s → P s.
Proof.
  intros H0 Hstep Hreach. induction Hreach as [|x y z Hxy _ IH]; [done|].
  apply IH. by eapply Hstep.
Qed.

Lemma step_maxcores s s' : step s s' → maxcores s' = maxcores s.
Proof.
  intros [x ready y out _ Hpass|x cb y Hcb].
  - by destruct (pass_inv _ _ _ _ Hpass) as (_ & _ & _ & -> & _).
  - by destruct (deliver_frame _ _ _ Hcb) as (_ & -> & _).
Qed.

(** How a step changes the job objects: a pass clamps the ready jobs, a
    callback changes none. *)
Lemma step_dag s s' :
  step s s' →
  ∀ r, dag s' !! r = dag s !! r ∨
       dag s' !! r = clamp (maxcores s) <$> dag s !! r.
Proof.
  intros [x ready y out _ Hpass|x cb y Hcb] r.
  - destruct (pass_detail _ _ _ _ Hpass) as (_ & _ & _ & _ & _ & _ & Hdag & _).
    rewrite Hdag. destruct (decide _); [by right|by left].
  - destruct (deliver_frame _ _ _ Hcb) as (-> & _). by left.
Qed.

Lemma step_dispatched s s' :
  step s s' →
  ∃ run, dispatched s' = dispatched s ++ run ∧
    Forall (λ r, ∃ job, dag s' !! r = Some job ∧ needrun job = true ∧
                        threads job ≤ maxcores s) run.
Proof.
  intros [x ready y out _ Hpass|x cb y Hcb].
  - destruct (pass_detail _ _ _ _ Hpass)
      as (run & w & Hd & _ & _ & _ & _ & Hrun).
    exists run. split; [done|].
    eapply Forall_impl; [exact Hrun|]. by intros r [_ ?].
  - exists []. rewrite app_nil_r. split; [|done].
    by destruct (deliver_inv _ _ _ Hcb) as (_ & -> & _).
Qed.

(** Whatever the executor and the budget, every job the scheduler has
    handed to the executor needs to run and asks for at most [maxcores]
    threads: a job that is up to date is never run, and none is run
    wider than the machine. *)
Theorem dispatched_jobs_need_run_and_fit jobs cores dryrun touch cluster s :
  reachable (init jobs cores dryrun touch cluster) s →
  Forall (λ r, ∃ job, dag s !! r = Some job ∧ needrun job = true ∧
                      threads job ≤ cores) (dispatched s).
Proof.
  intros Hreach.
  cut (maxcores s = cores ∧
       Forall (λ r, ∃ job, dag s !! r = Some job ∧ needrun job = true ∧
                           threads job ≤ cores) (dispatched s)).
  { by intros [_ ?]. }
  eapply (reachable_inv (λ s, maxcores s = cores ∧
            Forall (λ r, ∃ job, dag s !! r = Some job ∧ needrun job = true ∧
                                threads job ≤ cores) (dispatched s)));
    [| |exact Hreach].
  - split; [done|]. unfold dispatched. simpl. constructor.
  - clear s Hreach. intros y z IH Hstep. destruct IH as [Hm IH].
    pose proof (step_maxcores _ _ Hstep) as Hm'.
    destruct (step_dispatched _ _ Hstep) as (run & Hd & Hrun).
    split; [congruence|]. rewrite Hd. apply Forall_app. split.
    + eapply Forall_impl; [exact IH|]. intros r (job & Hjob & Hn & Hfit).
      exists job. split; [|done].
      destruct (step_dag _ _ Hstep r) as [->| ->]; [done|].
      rewrite Hjob. simpl. rewrite clamp_small; [done|lia].
    + eapply Forall_impl; [exact Hrun|]. intros r (job & Hjob & Hn & Hfit).
      exists job. split; [done|]. split; [done|]. lia.
Qed.

Lemma dispatched_jobs_need_run_and_fit_witness :
  Forall (λ r, ∃ job, dag (demo_pass false false true) !! r = Some job ∧
                      needrun job = true ∧ threads job ≤ 4)
    (dispatched (demo_pass false false true)).
Proof.
  apply (dispatched_jobs_need_run_and_fit demo_store 4 false false true).
  exact (demo_pass_reachable false false true).
Defined.

(** The scheduler's only change to a job object is the clamp: in every
    reachable state each object of the graph is still there, with its rule
    and its [needrun] flag, and its thread requirement is either the
    original one or [maxcores], never more than the original. *)
Theorem store_only_clamped jobs cores dryrun touch cluster s :
  reachable (init jobs cores dryrun touch cluster) s →
  ∀ r, match jobs !! r, dag s !! r with
       | Some job, Some job' =>
           rule job' = rule job ∧ needrun job' = needrun job ∧
           (threads job' = threads job ∨
            threads job' = cores ∧ cores < threads job ∧ needrun job = true)
       | None, None => True
       | _, _ => False
       end.
Proof.
  intros Hreach.
  assert (Hinv : maxcores s = cores ∧
    ∀ r, dag s !! r = jobs !! r ∨ dag s !! r = clamp cores <$> jobs !! r).
  { eapply (reachable_inv (λ s, maxcores s = cores ∧
        ∀ r, dag s !! r = jobs !! r ∨ dag s !! r = clamp cores <$> jobs !! r));
      [| |exact Hreach].
    - split; [done|]. intros r. by left.
    - clear s Hreach. intros y z IH Hstep. destruct IH as [Hm IH]. split.
      + by rewrite (step_maxcores _ _ Hstep).
      + intros r.
        destruct (step_dag _ _ Hstep r) as [->| ->]; [apply IH|].
        rewrite Hm. destruct (IH r) as [->| ->]; [by right|].
        right. destruct (jobs !! r); [|done]. simpl.
        by rewrite clamp_idemp. }
  destruct Hinv as [_ Hinv]. intros r.
  destruct (Hinv r) as [->| ->]; destruct (jobs !! r) as [job|]; simpl;
    try done.
  - auto.
  - rewrite clamp_rule, clamp_needrun. split; [done|]. split; [done|].
    unfold clamp. destruct (needrun job); simpl; [|by left].
    case_bool_decide; simpl; [right; split; [done|split; [lia|done]]|by left].
Qed.

Lemma store_only_clamped_witness :
  match demo_store !! 3%positive,
        dag (demo_pass false false false) !! 3%positive with
  | Some job, Some job' =>
      rule job' = rule job ∧ needrun job' = needrun job ∧
      (threads job' = threads job ∨
       threads job' = 4 ∧ 4 < threads job ∧ needrun job = true)
  | None, None => True
  | _, _ => False
  end.
Proof.
  apply (store_only_clamped demo_store 4 false false false
           (demo_pass false false false)).
  exact (demo_pass_reachable false false false).
Defined.

Lemma no_finish_omap ws :
  Forall (λ e, ∀ r, e ≠ DagFinish r ∧ e ≠ StatsEnd r) ws →
  omap (λ e, match e with DagFinish r => Some r | _ => None end) ws = [].
Proof.
  induction 1 as [|e ws He _ IH]; [done|].
  destruct e as [| | | | |r| |]; simpl; try done. by destruct (He r) as [? _].
Qed.

Lemma step_finished s s' :
  step s s' →
  finished_jobs s' - Z.of_nat (length (finished s'))
  = finished_jobs s - Z.of_nat (length (finished s)).
Proof.
  intros [x ready y out _ Hpass|x cb y Hcb].
  - destruct (pass_inv _ _ _ _ Hpass)
      as (_ & _ & -> & _ & _ & _ & ws & Hws & Hall & _).
    unfold finished. rewrite Hws, omap_app, (no_finish_omap ws) by done.
    by rewrite app_nil_r.
  - destruct cb as [r|r]; simpl in Hcb; case_decide; try done.
    + destruct (dag x !! r) as [job|] eqn:Hjob.
      * destruct (finished_inv (set_in_flight (remove_one r (in_flight x)) x)
                    r job Hjob) as (s1 & Hs1 & Hf & _ & _ & Htr & _).
        rewrite Hcb in Hs1. injection Hs1 as <-.
        unfold finished. rewrite Htr, Hf. cbn [set_in_flight trace finished_jobs].
        rewrite !omap_app, length_app.
        destruct (dryrun _); cbn; lia.
      * unfold _finished in Hcb. cbn [emit set_in_flight dag] in Hcb.
        by rewrite Hjob in Hcb.
    + by injection Hcb as <-.
Qed.

(** [finished_jobs] counts the completions as long as callbacks run one
    at a time (line 72 is an unlocked read-modify-write): in every state
    of a serialized execution it is the number of jobs reported to the
    graph as finished. *)
Theorem finished_jobs_counts_completions jobs cores dryrun touch cluster s :
  reachable (init jobs cores dryrun touch cluster) s →
  finished_jobs s = Z.of_nat (length (finished s)).
Proof.
  intros Hreach.
  cut (finished_jobs s - Z.of_nat (length (finished s)) = 0); [lia|].
  eapply (reachable_inv
            (λ s, finished_jobs s - Z.of_nat (length (finished s)) = 0)
            (init jobs cores dryrun touch cluster));
    [reflexivity| |exact Hreach].
  intros y z IH Hstep. by rewrite (step_finished _ _ Hstep).
Qed.

Lemma finished_jobs_counts_completions_witness :
  finished_jobs (demo_pass false false false)
  = Z.of_nat (length (finished (demo_pass false false false))).
Proof.
  apply (finished_jobs_counts_completions demo_store 4 false false false).
  exact (demo_pass_reachable false false false).
Defined.

Lemma budget_exact_step s s' :
  budget_ok s → step s s' →
  (_errors s = false →
   _cores s + total (dag s) (in_flight s) = maxcores s) →
  _errors s' = false →
  _cores s' + total (dag s') (in_flight s') = maxcores s'.
Proof.
  intros Hok Hstep Hex Herr'.
  rewrite (step_maxcores _ _ Hstep).
  destruct Hok as (_ & _ & _ & Hfl & _ & _).
  destruct Hstep as [x ready y out _ Hpass|x cb y Hcb].
  - destruct (pass_inv _ _ _ _ Hpass) as (_ & He & _).
    rewrite He in Herr'. specialize (Hex Herr').
    destruct (pass_detail _ _ _ _ Hpass)
      as (run & w & _ & -> & Hw & -> & Hdag & _).
    apply sum_threads_total in Hw as ->. rewrite total_app.
    rewrite (total_ext (dag x) (dag y) (in_flight x)); [lia|].
    eapply Forall_impl; [exact Hfl|]. intros r (job & Hjob & _ & Hfit).
    simpl. rewrite Hdag, Hjob. destruct (decide _); [|done].
    change (Some (clamp (maxcores x) job) = Some job).
    by rewrite clamp_small.
  - destruct cb as [r|r]; simpl in Hcb; case_decide as Hin; try done.
    + destruct (proj1 (Forall_forall _ _) Hfl r Hin)
        as (job & Hjob & Hn & _).
      destruct (finished_inv (set_in_flight (remove_one r (in_flight x)) x)
                  r job Hjob)
        as (s1 & Hs1 & _ & Hco & _ & _ & Hdag & He & Hfl1).
      rewrite Hcb in Hs1. injection Hs1 as <-.
      rewrite Hn in Hco. cbn in Hco, Hdag, He, Hfl1.
      rewrite He in Herr'. specialize (Hex Herr').
      rewrite Hco, Hdag, Hfl1, total_remove_one by done.
      rewrite (thr_lookup _ _ _ Hjob). lia.
    + by injection Hcb as <-.
Qed.

(** While no error has been reported and passes and callbacks run one at
    a time (lines 63 and 71 are unlocked read-modify-writes), a scheduler
    that runs its jobs locally accounts for every core: in every state of
    a serialized execution the counter and the threads of the jobs still
    with the executor add up to exactly [maxcores]. *)
Theorem local_budget_exact jobs cores s :
  0 ≤ cores →
  (∀ r job, jobs !! r = Some job → 0 ≤ threads job) →
  reachable (init jobs cores false false false) s →
  _errors s = false →
  ∃ outstanding,
    sum_threads (dag s) (in_flight s) = Some outstanding ∧
    _cores s + outstanding = maxcores s.
Proof.
  intros Hc Hwf Hreach Herr.
  assert (Hinv : budget_ok s ∧
    (_errors s = false →
     _cores s + total (dag s) (in_flight s) = maxcores s)).
  { eapply (reachable_inv (λ s, budget_ok s ∧
      (_errors s = false →
       _cores s + total (dag s) (in_flight s) = maxcores s))
      (init jobs cores false false false)); [| |exact Hreach].
    - split; [by apply budget_ok_init|]. intros _. cbn. lia.
    - intros x y [Hok Hex] Hstep. split.
      + eapply budget_ok_reachable; [exact Hok|by apply rtc_once].
      + by apply (budget_exact_step x y). }
  destruct Hinv as [(_ & _ & _ & Hfl & _ & _) Hex].
  exists (total (dag s) (in_flight s)). split; [|by apply Hex].
  apply sum_threads_Some. eapply Forall_impl; [exact Hfl|].
  intros r (job & Hjob & _). by exists job.
Qed.

Lemma local_budget_exact_witness :
  ∃ outstanding,
    sum_threads (dag (demo_pass false false false))
      (in_flight (demo_pass false false false)) = Some outstanding ∧
    _cores (demo_pass false false false) + outstanding
    = maxcores (demo_pass false false false).
Proof.
  apply (local_budget_exact demo_store 4 (demo_pass false false false)).
  - lia.
  - exact demo_store_nonneg.
  - exact (demo_pass_reachable false false false).
  - vm_compute. reflexivity.
Defined.

Lemma scan_fixed l : ∀ s acc,
  Forall (λ r, ∃ job, dag s !! r = Some job ∧
                      clamp (maxcores s) job = job) l →
  Py.for_each l scan_job (s, acc)
  = Some (s, acc ++ filter (λ r, needs_run (dag s) r) l).
Proof.
  induction l as [|r l IH]; intros s acc Hl.
  - simpl. by rewrite filter_nil, app_nil_r.
  - apply Forall_cons in Hl as [(job & Hjob & Hfix) Hl].
    assert (Hstep : scan_job r (s, acc)
                    = Some (s, acc ++ if needrun job then [r] else [])).
    { unfold scan_job. rewrite Hjob. simpl.
      unfold clamp in Hfix. destruct (needrun job) eqn:Hn; simpl in *.
      - case_bool_decide as Hgt; [|done]. simpl in Hfix.
        rewrite <- Hfix in Hgt. simpl in Hgt. lia.
      - by rewrite app_nil_r. }
    cbn [Py.for_each]. rewrite Hstep. cbn [mbind option_bind].
    rewrite IH by done. f_equal. f_equal. rewrite <- (assoc_L (++)). f_equal.
    destruct (needrun job) eqn:Hn.
    + rewrite filter_cons_True; [done|].
      unfold needs_run. rewrite Hjob. simpl. by rewrite Hn.
    + rewrite filter_cons_False; [done|].
      unfold needs_run. rewrite Hjob. simpl. rewrite Hn. simpl. tauto.
Qed.

(** Clamping is done once: scanning the same ready jobs again after a
    scan changes no job object, logs no further warning and yields the
    same candidates. *)
Theorem scan_idempotent s ready s1 needrun_jobs :
  scan s ready = Some (s1, needrun_jobs) →
  scan s1 ready = Some (s1, needrun_jobs).
Proof.
  intros Hscan.
  destruct (scan_inv _ _ _ _ _ Hscan) as (Hal & Hctl & Hdag & Hnr & _ & _).
  destruct Hctl as (_ & Hm & _).
  unfold scan. rewrite scan_fixed.
  - f_equal. f_equal. rewrite Hnr.
    apply list_filter_iff. intros r. unfold needs_run. rewrite Hdag.
    case_decide; [|done]. destruct (dag s !! r); [|done]. simpl.
    by rewrite clamp_needrun.
  - apply Forall_forall. intros r Hr.
    destruct (proj1 (Forall_forall _ _) Hal r Hr) as [job Hjob].
    exists (clamp (maxcores s) job).
    rewrite Hdag, decide_True, Hjob, Hm by done.
    split; [done|]. apply clamp_idemp.
Qed.

Lemma scan_idempotent_witness :
  scan (set_dag (<[3%positive := mkJob "B" 2 true]> demo_store)
          (emit (LogWarn "B" 3 2) (init demo_store 2 false false false)))
    [3]%positive
  = Some (set_dag (<[3%positive := mkJob "B" 2 true]> demo_store)
            (emit (LogWarn "B" 3 2) (init demo_store 2 false false false)),
          [3]%positive).
Proof.
  apply (scan_idempotent (init demo_store 2 false false false) [3]%positive).
  vm_compute. reflexivity.
Defined.

Lemma scan_dispatched s ready s1 needrun_jobs :
  scan s ready = Some (s1, needrun_jobs) → dispatched s1 = dispatched s.
Proof.
  intros Hscan.
  destruct (scan_inv _ _ _ _ _ Hscan) as (_ & _ & _ & _ & Htr & _).
  destruct Htr as (ws & Hws & _ & Hwarn).
  eapply dispatched_trace; [exact Hws|].
  eapply Forall_impl; [exact Hwarn|]. by intros e (a & b & c & ->).
Qed.

(** A pass that scans and finds candidates hands the selector's choice
    to the executor, in the order the selection is iterated. *)
Lemma pass_dispatches s ready s1 needrun_jobs run w :
  _errors s = false →
  scan (set_open_jobs false s) ready = Some (s1, needrun_jobs) →
  needrun_jobs ≠ [] →
  select s1 needrun_jobs = Some run →
  sum_threads (dag s1) run = Some w →
  ∃ s', schedule_iter s ready = Some (s', None) ∧
        dispatched s' = dispatched s ++ run ∧
        _cores s' = _cores s - w.
Proof.
  intros Herr Hscan Hne Hrun Hw.
  assert (Hdisp : is_Some (dispatch s1 needrun_jobs)).
  { unfold dispatch. rewrite Hrun. cbn [mbind option_bind].
    rewrite Hw. by eexists. }
  destruct Hdisp as [s2 Hdisp]. exists s2.
  destruct (dispatch_inv _ _ _ Hdisp)
    as (run' & w' & Hrun' & Hw' & Hco & _ & Htr & _).
  rewrite Hrun in Hrun'. injection Hrun' as <-.
  rewrite Hw in Hw'. injection Hw' as <-.
  split; [|split].
  - unfold schedule_iter. cbn [set_open_jobs _errors]. rewrite Herr, Hscan.
    cbn [mbind option_bind]. destruct needrun_jobs; [done|].
    by rewrite Hdisp.
  - rewrite (dispatched_flat_map _ _ _ Htr).
    by rewrite (scan_dispatched _ _ _ _ Hscan).
  - rewrite Hco.
    destruct (scan_inv _ _ _ _ _ Hscan) as (_ & Hctl & _).
    by destruct Hctl as (_ & _ & _ & -> & _).
Qed.

(** With an executor that does not run jobs locally (dry run, touch,
    cluster) and a counter at least as large as the number of ready jobs
    that need to run, one pass hands all of them to the executor, in the
    order the graph listed them. *)
Theorem prefix_pass_dispatches_in_order s ready :
  selector s = PrefixSelector → _errors s = false →
  Forall (λ r, is_Some (dag s !! r)) ready →
  filter (λ r, needs_run (dag s) r) ready ≠ [] →
  Z.of_nat (length (filter (λ r, needs_run (dag s) r) ready)) ≤ _cores s →
  ∃ s', schedule_iter s ready = Some (s', None) ∧
        dispatched s'
        = dispatched s ++ filter (λ r, needs_run (dag s) r) ready.
Proof.
  intros Hsel Herr Hal Hne Hfit.
  destruct (scan_total ready (set_open_jobs false s) [] Hal)
    as [[s1 nr] Hscan].
  pose proof (scan_candidates _ _ _ _ Hscan) as Hcand.
  destruct (scan_inv _ _ _ _ _ Hscan) as (_ & Hctl & _ & Hnr & _ & _).
  destruct Hctl as (_ & _ & _ & Hco & _ & _ & Hs & _).
  cbn [set_open_jobs dag _cores selector] in *. simpl in Hnr. subst nr.
  set (nr := filter (λ r, needs_run (dag s) r) ready) in *.
  assert (Hrun : select s1 nr = Some nr).
  { unfold select. rewrite Hs, Hsel. f_equal.
    unfold _selector, Py.slice_to.
    rewrite bool_decide_eq_true_2 by lia. apply take_ge. lia. }
  assert (Hw : sum_threads (dag s1) nr = Some (total (dag s1) nr)).
  { apply sum_threads_Some. eapply Forall_impl; [exact Hcand|].
    intros r (_ & job & Hjob & _). by exists job. }
  destruct (pass_dispatches _ _ _ _ _ _ Herr Hscan Hne Hrun Hw)
    as (s' & Hpass & Hd & _).
  by exists s'.
Qed.

Lemma prefix_pass_dispatches_in_order_witness :
  ∃ s', schedule_iter (init demo_store 4 false false true) [1; 2; 3]%positive
        = Some (s', None) ∧
        dispatched s'
        = dispatched (init demo_store 4 false false true) ++
          filter (λ r, needs_run (dag (init demo_store 4 false false true)) r)
            [1; 2; 3]%positive.
Proof.
  apply (prefix_pass_dispatches_in_order
           (init demo_store 4 false false true) [1; 2; 3]%positive).
  - reflexivity.
  - reflexivity.
  - repeat constructor; eexists; vm_compute; reflexivity.
  - vm_compute. discriminate.
  - vm_compute. discriminate.
Defined.

(** A scheduler that runs its jobs locally does not idle while a ready
    job fits: if some ready job needs to run, asks for at least one
    thread, and the counter covers its requirement once clamped to
    [maxcores], the pass hands at least one job to the executor.  In
    particular an oversized job is dispatched as soon as all cores are
    free. *)
Theorem local_pass_makes_progress s ready r job :
  selector s = ThreadBasedSelector → _errors s = false →
  1 ≤ maxcores s →
  Forall (λ r, ∃ job, dag s !! r = Some job ∧ 0 ≤ threads job) ready →
  r ∈ ready → dag s !! r = Some job → needrun job = true →
  1 ≤ threads job →
  Z.min (threads job) (maxcores s) ≤ _cores s →
  ∃ s' run, schedule_iter s ready = Some (s', None) ∧
            dispatched s' = dispatched s ++ run ∧ run ≠ [].
Proof.
  intros Hsel Herr Hmax Hready Hr Hjob Hn Hone Hfit.
  assert (Hal : Forall (λ r, is_Some (dag s !! r)) ready).
  { eapply Forall_impl; [exact Hready|]. intros x (j & Hj & _). by exists j. }
  destruct (scan_total ready (set_open_jobs false s) [] Hal)
    as [[s1 nr] Hscan].
  pose proof (scan_candidates _ _ _ _ Hscan) as Hcand.
  destruct (scan_inv _ _ _ _ _ Hscan) as (_ & Hctl & Hdag & Hnr & _ & _).
  destruct Hctl as (_ & _ & _ & Hco & _ & _ & Hs & _).
  cbn [set_open_jobs dag _cores selector maxcores] in *. simpl in Hnr.
  assert (Hin : r ∈ nr).
  { rewrite Hnr. apply list_elem_of_filter. split; [|done].
    unfold needs_run. rewrite Hjob. simpl. by rewrite Hn. }
  assert (Hok : candidates_ok (dag s1) nr).
  { apply Forall_forall. intros x Hx.
    destruct (proj1 (Forall_forall _ _) Hcand x Hx) as (Hxr & _).
    destruct (proj1 (Forall_forall _ _) Hready x Hxr) as (j & Hj & Hpos).
    exists (clamp (maxcores s) j). rewrite Hdag, decide_True, Hj by done.
    split; [done|]. apply clamp_nonneg; [lia|done]. }
  assert (Ht : job_threads (dag s1) r
               = Some (Z.min (threads job) (maxcores s))).
  { unfold job_threads. rewrite Hdag, decide_True, Hjob by done.
    cbn [fmap option_fmap option_map]. f_equal.
    unfold clamp. rewrite Hn. simpl. case_bool_decide; simpl; lia. }
  destruct (selector_nonempty (dag s1) (_cores s1) nr r _ Hok Hin Ht)
    as (sol & Hsol & Hne); [lia|].
  assert (Hrun : select s1 nr = Some (elements sol)).
  { unfold select. by rewrite Hs, Hsel, Hsol. }
  assert (Hw : sum_threads (dag s1) (elements sol)
               = Some (total (dag s1) (elements sol))).
  { apply sum_threads_Some. apply Forall_forall. intros x Hx.
    apply (select_subset _ _ _ Hrun) in Hx.
    destruct (proj1 (Forall_forall _ _) Hcand x Hx) as (_ & j & Hj & _).
    by exists j. }
  assert (Hnr' : nr ≠ []) by (intros ->; by apply not_elem_of_nil in Hin).
  destruct (pass_dispatches _ _ _ _ _ _ Herr Hscan Hnr' Hrun Hw)
    as (s' & Hpass & Hd & _).
  exists s', (elements sol). split; [done|]. split; [done|].
  intros Hel. apply Hne. by apply elements_empty_iff, leibniz_equiv in Hel.
Qed.

Lemma local_pass_makes_progress_witness :
  ∃ s' run,
    schedule_iter (init demo_store 2 false false false) [3]%positive
    = Some (s', None) ∧
    dispatched s'
    = dispatched (init demo_store 2 false false false) ++ run ∧
    run ≠ [].
Proof.
  apply (local_pass_makes_progress (init demo_store 2 false false false)
           [3]%positive 3%positive (mkJob "B" 3 true)).
  - reflexivity.
  - reflexivity.
  - simpl. lia.
  - repeat constructor. eexists. split; [vm_compute; reflexivity|simpl; lia].
  - apply list_elem_of_singleton. reflexivity.
  - vm_compute. reflexivity.
  - reflexivity.
  - simpl. lia.
  - simpl. lia.
Defined.

(** * Requirements outside the data model *)

Lemma reconstruct_positive h jobs (i : nat) : ∀ j x,
  x ∈ reconstruct h jobs i j → thr h x ≠ 0.
Proof.
  induction i as [|i IH]; intros j x Hx; [by apply not_elem_of_nil in Hx|].
  destruct (jobs !! i) as [r|] eqn:Hr.
  - rewrite (reconstruct_S _ _ _ _ _ Hr) in Hx.
    case_bool_decide as Hne; [|by eapply IH].
    apply elem_of_cons in Hx as [->|Hx]; [|by eapply IH].
    destruct (cell_changes_fits _ _ _ _ _ Hr Hne) as [_ Heq].
    intros H0. rewrite H0, Z.add_0_l, Z.sub_0_r in Heq. done.
  - rewrite reconstruct_S_None in Hx by done. by eapply IH.
Qed.

(** A candidate that asks for zero threads is never selected by the
    knapsack selector, however much budget is left: taking it would not
    change the table. *)
Theorem knapsack_skips_zero_thread_jobs h cores jobs sol r :
  candidates_ok h jobs → 0 ≤ cores →
  _thread_based_selector h cores jobs = Some sol →
  job_threads h r = Some 0 →
  r ∉ sol.
Proof.
  intros Hok Hc Hsol Ht Hr.
  rewrite selector_reconstruct in Hsol by done. injection Hsol as <-.
  apply elem_of_list_to_set in Hr.
  apply reconstruct_positive in Hr. apply Hr.
  unfold thr. by rewrite Ht.
Qed.

Lemma knapsack_skips_zero_thread_jobs_witness :
  4%positive ∉ ({[1%positive]} : gset positive).
Proof.
  apply (knapsack_skips_zero_thread_jobs
           (<[4%positive := mkJob "Z" 0 true]> demo_store) 3
           [4; 1]%positive {[1%positive]} 4%positive).
  - repeat constructor; eexists; (split; [vm_compute; reflexivity|simpl; lia]).
  - lia.
  - vm_compute. reflexivity.
  - vm_compute. reflexivity.
Defined.

(** A loop whose body fails at [x] in every state that satisfies an
    invariant the body keeps fails as a whole. *)
Lemma for_each_fails {A S} (P : S → Prop) (body : A → S → option S) xs x :
  (∀ y s s', P s → body y s = Some s' → P s') →
  x ∈ xs → (∀ s, P s → body x s = None) →
  ∀ s, P s → Py.for_each xs body s = None.
Proof.
  intros Hkeep Hx Hfail. induction xs as [|y xs IH]; intros s Hs.
  - by apply not_elem_of_nil in Hx.
  - cbn [Py.for_each]. destruct (body y s) as [s'|] eqn:Hy; [|done].
    cbn [mbind option_bind].
    apply elem_of_cons in Hx as [->|Hx].
    + by rewrite Hfail in Hy.
    + apply IH; [done|]. by eapply Hkeep.
Qed.

Lemma elem_of_range lo hi k : lo ≤ k < hi → k ∈ Py.range lo hi.
Proof.
  intros Hk. unfold Py.range. apply list_elem_of_fmap.
  exists (Z.to_nat (k - lo)). split; [lia|].
  apply elem_of_seq. lia.
Qed.

Lemma tset_dims K i j v K' (m n : nat) :
  tset K i j v = Some K' →
  length K = m ∧ Forall (λ row, length row = n) K →
  length K' = m ∧ Forall (λ row, length row = n) K'.
Proof.
  unfold tset. intros Hset [Hm Hn].
  destruct (Py.index K i) as [row|] eqn:Hrow; [|done].
  cbn [mbind option_bind] in Hset.
  destruct (Py.setitem row j v) as [row'|] eqn:Hrow'; [|done].
  cbn [mbind option_bind] in Hset.
  assert (Hlen : length row' = n).
  { apply index_elem_of in Hrow.
    pose proof (proj1 (Forall_forall _ _) Hn row Hrow) as Hl. simpl in Hl.
    unfold Py.setitem in Hrow'.
    repeat case_bool_decide; try done; injection Hrow' as <-;
      by rewrite length_insert. }
  unfold Py.setitem in Hset.
  repeat case_bool_decide; try done; injection Hset as <-;
    (split; [by rewrite length_insert|by apply Forall_insert]).
Qed.

Lemma fill_cell_dims h jobs i j K K' (m n : nat) :
  fill_cell h jobs i j K = Some K' →
  length K = m ∧ Forall (λ row, length row = n) K →
  length K' = m ∧ Forall (λ row, length row = n) K'.
Proof.
  unfold fill_cell. intros Hfill Hdims.
  destruct (Py.index jobs (i - 1)) as [r|]; [|done].
  cbn [mbind option_bind] in Hfill.
  destruct (job_threads h r) as [t|]; [|done].
  cbn [mbind option_bind] in Hfill.
  case_bool_decide.
  - destruct (tget K (i - 1) j) as [a|]; [|done].
    cbn [mbind option_bind] in Hfill. by eapply tset_dims.
  - destruct (tget K (i - 1) j) as [a|]; [|done].
    cbn [mbind option_bind] in Hfill.
    destruct (tget K (i - 1) (j - t)) as [b|]; [|done].
    cbn [mbind option_bind] in Hfill. by eapply tset_dims.
Qed.

Lemma for_each_keeps {A S} (P : S → Prop) (body : A → S → option S) xs :
  (∀ y s s', P s → body y s = Some s' → P s') →
  ∀ s s', P s → Py.for_each xs body s = Some s' → P s'.
Proof.
  intros Hkeep. induction xs as [|y xs IH]; intros s s' Hs.
  - by intros [= <-].
  - cbn [Py.for_each]. destruct (body y s) as [s1|] eqn:Hy; [|done].
    cbn [mbind option_bind]. apply IH. by eapply Hkeep.
Qed.

(** A candidate with a negative thread requirement makes the knapsack
    selector raise as soon as the budget is at least one: filling its row
    reads a cell to the right of the table. *)
Theorem knapsack_negative_threads_raise h cores jobs r t :
  1 ≤ cores → r ∈ jobs → job_threads h r = Some t → t < 0 →
  _thread_based_selector h cores jobs = None.
Proof.
  intros Hc Hr Ht Hneg.
  apply list_elem_of_lookup in Hr as [i Hi].
  pose proof (lookup_lt_Some _ _ _ Hi) as Hlt.
  set (m := S (length jobs)). set (n := S (Z.to_nat cores)).
  set (P := λ K : list (list Z),
              length K = m ∧ Forall (λ row, length row = n) K).
  assert (Hcell : ∀ K, P K →
    fill_cell h jobs (Z.of_nat (S i)) cores K = None).
  { intros K [Hm Hn]. unfold fill_cell.
    replace (Z.of_nat (S i) - 1) with (Z.of_nat i) by lia.
    rewrite index_nat, Hi. cbn [mbind option_bind].
    rewrite Ht. cbn [mbind option_bind].
    rewrite bool_decide_eq_false_2 by lia.
    destruct (tget K (Z.of_nat i) cores) as [a|]; [|done].
    cbn [mbind option_bind].
    assert (Hout : tget K (Z.of_nat i) (cores - t) = None).
    { unfold tget. rewrite index_nat.
      destruct (K !! i) as [row|] eqn:Hrow; [|done].
      cbn [mbind option_bind].
      pose proof (proj1 (Forall_forall _ _) Hn row
                    (list_elem_of_lookup_2 _ _ _ Hrow)) as Hl.
      simpl in Hl. unfold Py.index.
      rewrite bool_decide_eq_true_2 by lia.
      apply lookup_ge_None. subst n. lia. }
    by rewrite Hout. }
  assert (Hrow : ∀ K, P K →
    Py.for_each (Py.range 1 (cores + 1))
      (fill_cell h jobs (Z.of_nat (S i))) K = None).
  { apply (for_each_fails P _ _ cores).
    - intros j K K' HK Hfill. by eapply fill_cell_dims.
    - apply elem_of_range. lia.
    - exact Hcell. }
  unfold _thread_based_selector, fill_table.
  rewrite (for_each_fails P _ _ (Z.of_nat (S i))); [done| | |exact Hrow|].
  - intros k K K' HK Hfor.
    eapply (for_each_keeps P); [|exact HK|exact Hfor].
    intros j K1 K2 HK1 Hfill. by eapply fill_cell_dims.
  - apply elem_of_range. lia.
  - subst P m n. split.
    + rewrite length_replicate. lia.
    + apply Forall_replicate. rewrite length_replicate. lia.
Qed.

Lemma knapsack_negative_threads_raise_witness :
  _thread_based_selector (<[4%positive := mkJob "N" (-1) true]> demo_store) 4
    [1; 4]%positive = None.
Proof.
  apply (knapsack_negative_threads_raise
           (<[4%positive := mkJob "N" (-1) true]> demo_store) 4
           [1; 4]%positive 4%positive (-1)).
  - lia.
  - apply (bool_decide_unpack _). vm_compute. exact I.
  - vm_compute. reflexivity.
  - lia.
Defined.

(** * The configuration and the log *)

(** The choices made by [__init__] are final: in every reachable state
    the dry-run flag and [maxcores] are the constructor's arguments, and
    [self._selector] is the knapsack exactly when none of dry run, touch
    and cluster was asked for. *)
Theorem configuration_is_fixed jobs cores dryrun_flag touch cluster s :
  reachable (init jobs cores dryrun_flag touch cluster) s →
  dryrun s = dryrun_flag ∧ maxcores s = cores ∧
  (selector s = ThreadBasedSelector ↔
   dryrun_flag = false ∧ touch = false ∧ cluster = false).
Proof.
  intros Hreach.
  assert (Hinv : dryrun s = dryrun_flag ∧ maxcores s = cores ∧
            selector s = selector (init jobs cores dryrun_flag touch cluster)).
  { eapply (reachable_inv (λ s, dryrun s = dryrun_flag ∧ maxcores s = cores ∧
              selector s
              = selector (init jobs cores dryrun_flag touch cluster))
              (init jobs cores dryrun_flag touch cluster));
      [done| |exact Hreach].
    intros x y (Hd & Hm & Hs) Hstep.
    destruct Hstep as [x ready y out _ Hpass|x cb y Hcb].
    - destruct (pass_inv _ _ _ _ Hpass) as (_ & _ & _ & -> & -> & -> & _).
      by repeat split.
    - destruct (deliver_frame _ _ _ Hcb) as (_ & -> & -> & ->).
      by repeat split. }
  destruct Hinv as (Hd & Hm & Hs). split; [done|]. split; [done|].
  rewrite Hs. cbn.
  destruct dryrun_flag, touch, cluster; (split; [|by intros (? & ? & ?)]);
    done.
Qed.

Lemma configuration_is_fixed_witness :
  dryrun (demo_pass false false true) = false ∧
  maxcores (demo_pass false false true) = 4 ∧
  (selector (demo_pass false false true) = ThreadBasedSelector ↔
   false = false ∧ false = false ∧ true = false).
Proof.
  apply (configuration_is_fixed demo_store 4 false false true).
  exact (demo_pass_reachable false false true).
Defined.

Lemma pass_log s ready s' out :
  schedule_iter s ready = Some (s', out) →
  ∃ ws, trace s' = trace s ++ ws ∧
    Forall (λ e, (∀ a b, e ≠ LogInfo a b) ∧
                 (dryrun s = true → ∀ a b c, e ≠ LogWarn a b c)) ws.
Proof.
  unfold schedule_iter. cbn [set_open_jobs _errors].
  destruct (_errors s).
  - intros [= <- _]. eexists. split; [cbn; by rewrite <- (assoc_L (++))|].
    by repeat constructor.
  - destruct (scan (set_open_jobs false s) ready) as [[s1 nr]|] eqn:Hscan;
      [|done].
    cbn [mbind option_bind].
    destruct (scan_inv _ _ _ _ _ Hscan)
      as (_ & _ & _ & _ & (ws & Hws & Hnil & Hwarn) & _).
    cbn [set_open_jobs dryrun trace] in *.
    assert (Hws' : Forall (λ e, (∀ a b, e ≠ LogInfo a b) ∧
                     (dryrun s = true → ∀ a b c, e ≠ LogWarn a b c)) ws).
    { destruct (dryrun s); [by rewrite Hnil|].
      eapply Forall_impl; [exact Hwarn|]. by intros e (a & b & c & ->). }
    destruct nr as [|r nr].
    + intros [= <- _]. exists (ws ++ [ExecShutdown]).
      split; [cbn; by rewrite Hws, <- (assoc_L (++))|].
      apply Forall_app. split; [done|by repeat constructor].
    + destruct (dispatch s1 (r :: nr)) as [s2|] eqn:Hdisp; [|done].
      cbn [mbind option_bind]. intros [= <- _].
      destruct (dispatch_inv _ _ _ Hdisp)
        as (run & w & _ & _ & _ & _ & Htr & _).
      exists (ws ++ flat_map (λ r, [StatsStart r; ExecRun r]) run).
      split; [by rewrite Htr, Hws, <- (assoc_L (++))|].
      apply Forall_app. split; [done|].
      clear. induction run as [|x run IH]; simpl; [done|].
      by repeat constructor.
Qed.

(** A dry run logs neither clamp warnings nor progress lines: in every
    state reachable from a scheduler constructed with [dryrun], the trace
    holds no [logger.warn] of line 53 and no [logger.info] of line 110. *)
Theorem dry_run_is_silent jobs cores touch cluster s :
  reachable (init jobs cores true touch cluster) s →
  Forall (λ e, (∀ a b, e ≠ LogInfo a b) ∧ (∀ a b c, e ≠ LogWarn a b c))
    (trace s).
Proof.
  intros Hreach.
  cut (dryrun s = true ∧
       Forall (λ e, (∀ a b, e ≠ LogInfo a b) ∧ (∀ a b c, e ≠ LogWarn a b c))
         (trace s)); [by intros [_ ?]|].
  eapply (reachable_inv (λ s, dryrun s = true ∧
            Forall (λ e, (∀ a b, e ≠ LogInfo a b) ∧
                         (∀ a b c, e ≠ LogWarn a b c)) (trace s))
            (init jobs cores true touch cluster)); [| |exact Hreach].
  - split; [done|]. constructor.
  - clear s Hreach.
    intros x' y' [Hd Htr] Hstep.
    destruct Hstep as [x' ready y' out _ Hpass|x' cb y' Hcb].
    + destruct (pass_inv _ _ _ _ Hpass) as (_ & _ & _ & _ & _ & Hd' & _).
      destruct (pass_log _ _ _ _ Hpass) as (ws & -> & Hws).
      split; [congruence|]. apply Forall_app. split; [done|].
      eapply Forall_impl; [exact Hws|]. intros e [Hi Hw]. auto.
    + destruct (deliver_frame _ _ _ Hcb) as (_ & _ & _ & Hd').
      split; [congruence|].
      destruct cb as [r|r]; simpl in Hcb; case_decide; try done.
      * destruct (dag x' !! r) as [job|] eqn:Hjob.
        -- destruct (finished_inv
                       (set_in_flight (remove_one r (in_flight x')) x')
                       r job Hjob) as (s1 & Hs1 & _ & _ & _ & Htr1 & _).
           rewrite Hcb in Hs1. injection Hs1 as <-.
           rewrite Htr1. cbn [set_in_flight trace dryrun]. rewrite Hd.
           apply Forall_app. split; [done|]. by repeat constructor.
        -- unfold _finished in Hcb. cbn [emit set_in_flight dag] in Hcb.
           by rewrite Hjob in Hcb.
      * by injection Hcb as <-.
Qed.

Lemma dry_run_is_silent_witness :
  Forall (λ e, (∀ a b, e ≠ LogInfo a b) ∧ (∀ a b c, e ≠ LogWarn a b c))
    (trace (demo_pass true false false)).
Proof.
  apply (dry_run_is_silent demo_store 4 false false).
  exact (demo_pass_reachable true false false).
Defined.
